(** * Configuration resolution and entry snapshots of erdtree

    A shallow embedding of [src/render/context/mod.rs] ([Context::init],
    [Context::pick_args_from], [Context::regex_predicate],
    [Context::set_max_du_width]) and of [src/render/tree/node/mod.rs]
    ([Node::try_from], [Node::is_symlink]).

    The argument grammar engine (clap) is an external library; it is
    modelled here from its documented behaviour: long flags ([--name],
    [--name=value]), clusters of short flags ([-abc], [-Lvalue]), one
    positional, [--] as the end of options, [SetTrue] flags that store
    ["true"] and default to ["false"], option values that may not look like
    a flag, value parsers, defaults and [requires] constraints.  Raw tokens
    ([OsString]) are byte strings: a Rocq [string] is a list of 8-bit
    [ascii] characters, so any byte sequence is representable. *)

From Stdlib Require Import String Ascii List Bool NArith Lia.
Import ListNotations.
Open Scope string_scope.
Open Scope nat_scope.

Definition OsString := string.

(** ** Small string utilities *)

Fixpoint replace_char (from to : ascii) (s : string) : string :=
  match s with
  | EmptyString => EmptyString
  | String c s' =>
      String (if Ascii.eqb c from then to else c) (replace_char from to s')
  end.

(** [id.replace('_', "-")] *)
Definition kebab (id : string) : string := replace_char "_" "-" id.

(** Splits [s] at its first ['='] ([str::split_once('=')]). *)
Fixpoint split_eq (s : string) : string * option string :=
  match s with
  | EmptyString => (EmptyString, None)
  | String c s' =>
      if Ascii.eqb c "=" then (EmptyString, Some s')
      else let (a, b) := split_eq s' in (String c a, b)
  end.

Definition is_digit (c : ascii) : bool :=
  let n := nat_of_ascii c in Nat.leb 48 n && Nat.leb n 57.

Fixpoint digits_value (acc : N) (s : string) : option N :=
  match s with
  | EmptyString => Some acc
  | String c s' =>
      if is_digit c
      then digits_value (acc * 10 + N.of_nat (nat_of_ascii c - 48))%N s'
      else None
  end.

(** The value parser of [usize] (64-bit target, [str::parse]): an optional
    ['+'] then a non-empty run of decimal digits whose value fits in 64
    bits. *)
Definition parse_usize (s : string) : option N :=
  let ds := match s with String "+"%char r => r | _ => s end in
  match ds with
  | EmptyString => None
  | _ => match digits_value 0 ds with
         | Some n => if (n <? 2 ^ 64)%N then Some n else None
         | None => None
         end
  end.

(** UTF-8 well-formedness (Unicode table 3-7), used by the [String]
    value parser and by [to_string_lossy]. [utf8_lead c] is the length of a
    well-formed sequence led by [c], with the admissible range of its second
    byte. *)
Definition byte (c : ascii) : nat := nat_of_ascii c.

Definition utf8_lead (c : ascii) : option (nat * nat * nat) :=
  let b := byte c in
  if Nat.ltb b 128 then Some (1, 0, 0)
  else if Nat.leb 194 b && Nat.leb b 223 then Some (2, 128, 191)
  else if Nat.eqb b 224 then Some (3, 160, 191)
  else if Nat.leb 225 b && Nat.leb b 236 then Some (3, 128, 191)
  else if Nat.eqb b 237 then Some (3, 128, 159)
  else if Nat.leb 238 b && Nat.leb b 239 then Some (3, 128, 191)
  else if Nat.eqb b 240 then Some (4, 144, 191)
  else if Nat.leb 241 b && Nat.leb b 243 then Some (4, 128, 191)
  else if Nat.eqb b 244 then Some (4, 128, 143)
  else None.

Definition in_range (lo hi : nat) (c : ascii) : bool :=
  Nat.leb lo (byte c) && Nat.leb (byte c) hi.

(** Number of bytes of [s] that continue a sequence whose second byte lies
    in [lo..hi] and that needs [k] continuation bytes: the length of the
    valid continuation prefix. *)
Fixpoint cont_prefix (k lo hi : nat) (s : string) : nat :=
  match k, s with
  | 0, _ => 0
  | S k', String c s' =>
      if in_range lo hi c then S (cont_prefix k' 128 191 s') else 0
  | S _, EmptyString => 0
  end.

Definition replacement_char : string :=
  String (ascii_of_nat 239) (String (ascii_of_nat 191) (String (ascii_of_nat 189) EmptyString)).

(** [String::from_utf8_lossy]: every maximal ill-formed subpart becomes
    U+FFFD (its UTF-8 bytes EF BF BD). *)
Fixpoint lossy_fuel (fuel : nat) (s : string) : string :=
  match fuel with
  | 0 => EmptyString
  | S fuel' =>
      match s with
      | EmptyString => EmptyString
      | String c s' =>
          match utf8_lead c with
          | Some (n, lo, hi) =>
              if Nat.eqb n 1 then String c (lossy_fuel fuel' s')
              else
                let k := cont_prefix (n - 1) lo hi s' in
                let rest := substring k (String.length s') s' in
                if Nat.eqb k (n - 1)
                then substring 0 n s ++ lossy_fuel fuel' rest
                else replacement_char ++ lossy_fuel fuel' rest
          | None => replacement_char ++ lossy_fuel fuel' s'
          end
      end
  end.

Definition to_string_lossy (s : OsString) : string := lossy_fuel (String.length s) s.

Definition utf8_valid (s : OsString) : bool := String.eqb (to_string_lossy s) s.

(** ** Results and notations *)

Inductive result (A E : Type) : Type :=
| Ok (a : A)
| Err (e : E).
Arguments Ok {A E} a.
Arguments Err {A E} e.

Notation "x <-! a ;; b" := (match a with Ok x => b | Err e => Err e end)
  (at level 61, a at next level, right associativity).
Notation "x <-? a ;; b" := (match a with Some x => b | None => None end)
  (at level 61, a at next level, right associativity).

(** ** The grammar of [Context] ([#[derive(Parser)] pub struct Context]) *)

(** [DiskUsage] and [PrefixKind] live in [render/disk_usage] (outside
    src/); their variants are the ones [Node::try_from] and the spec name. *)
Inductive DiskUsage := Logical | Physical.
Inductive PrefixKind := Bin | Si.

Definition disk_usage_name (d : DiskUsage) : string :=
  match d with Logical => "logical" | Physical => "physical" end.
Definition prefix_kind_name (p : PrefixKind) : string :=
  match p with Bin => "bin" | Si => "si" end.

Definition parse_disk_usage (s : string) : option DiskUsage :=
  if String.eqb s "logical" then Some Logical
  else if String.eqb s "physical" then Some Physical else None.
Definition parse_prefix_kind (s : string) : option PrefixKind :=
  if String.eqb s "bin" then Some Bin
  else if String.eqb s "si" then Some Si else None.

(** What the grammar takes from the rest of the program: the defaults of
    [DiskUsage], [PrefixKind] and [SortType], the value names of
    [SortType] (module [sort], outside src/), and the two tty probes of the
    [#[clap(skip = ...)]] fields. *)
Record Env := mkEnv {
  du_default : DiskUsage;
  unit_default : PrefixKind;
  sort_values : list string;
  sort_default : string;
  env_stdin_tty : bool;
  env_stdout_tty : bool
}.

(** [clap_complete::Shell] value names. *)
Definition shells : list string := ["bash"; "elvish"; "fish"; "powershell"; "zsh"].

Definition member (x : string) (l : list string) : bool := existsb (String.eqb x) l.

Inductive ArgKind := Positional | Flag | Opt.

Record Arg := mkArg {
  arg_id : string;
  arg_kind : ArgKind;
  arg_short : option ascii;
  arg_long : option string;
  arg_default : option string;
  arg_requires : list string;
  arg_parser : OsString -> bool
}.

(** A [bool] field: [ArgAction::SetTrue], default ["false"]. *)
Definition flag (id : string) (short : option ascii) (requires : list string) : Arg :=
  mkArg id Flag short (Some (kebab id)) (Some "false") requires (fun _ => true).

Definition opt (id : string) (short : option ascii) (default : option string)
    (parser : OsString -> bool) : Arg :=
  mkArg id Opt short (Some (kebab id)) default [] parser.

Definition usize_parser (s : OsString) : bool :=
  match parse_usize s with Some _ => true | None => false end.

Definition nonempty (s : OsString) : bool := negb (String.eqb s "").

(** The arguments of [Context] in declaration order. *)
Definition grammar (env : Env) : list Arg := [
  mkArg "dir" Positional None None None [] nonempty;
  opt "disk_usage" (Some "d"%char) (Some (disk_usage_name (du_default env)))
      (fun s => member s ["logical"; "physical"]);
  flag "hidden" (Some "."%char) [];
  flag "no_git" None ["hidden"];
  flag "no_ignore" (Some "i"%char) [];
  flag "follow" (Some "f"%char) [];
  flag "icons" (Some "I"%char) [];
  opt "level" (Some "L"%char) None usize_parser;
  flag "long" (Some "l"%char) [];
  opt "pattern" (Some "p"%char) None utf8_valid;
  flag "glob" None ["pattern"];
  flag "iglob" None ["pattern"];
  flag "prune" (Some "P"%char) [];
  opt "scale" (Some "n"%char) (Some "2") usize_parser;
  flag "report" (Some "r"%char) [];
  flag "human" None ["report"];
  flag "file_name" None ["report"];
  opt "sort" (Some "s"%char) (Some (sort_default env)) (fun s => member s (sort_values env));
  flag "dirs_first" None [];
  opt "threads" (Some "t"%char) (Some "3") usize_parser;
  opt "unit" (Some "u"%char) (Some (prefix_kind_name (unit_default env)))
      (fun s => member s ["bin"; "si"]);
  opt "completions" None None (fun s => member s shells);
  flag "dirs_only" None [];
  flag "no_color" None [];
  flag "no_config" None [];
  flag "suppress_size" None []
].

(** ** Argument matches ([clap::ArgMatches])

    Per identifier, in insertion order: the source of its value and its raw
    values. *)

Inductive ValueSource := DefaultValue | EnvVariable | CommandLine.

Definition is_explicit (s : ValueSource) : bool :=
  match s with DefaultValue => false | _ => true end.

Definition Matches := list (string * (ValueSource * list OsString)).

Inductive ClapError :=
| UnknownArgument (tok : string)
| NoValue (id : string)
| ArgumentConflict (id : string)
| InvalidValue (id : string) (v : OsString)
| UnexpectedValue (id : string)
| MissingRequired (id req : string)
(** [-h]/[--help] and [-V]/[--version], which clap generates (the command has
    a [version]): the parse stops and the process prints and exits. *)
| DisplayHelp
| DisplayVersion.

Definition m_find (id : string) (m : Matches) : option (ValueSource * list OsString) :=
  match find (fun e => String.eqb (fst e) id) m with
  | Some (_, v) => Some v
  | None => None
  end.

Fixpoint m_replace (id : string) (v : ValueSource * list OsString) (m : Matches) : Matches :=
  match m with
  | [] => []
  | (i, w) :: m' => if String.eqb i id then (i, v) :: m' else (i, w) :: m_replace id v m'
  end.

(** [ArgMatches::try_get_raw]; an undeclared identifier and an absent one
    both give [None] here, as both make [if let Ok(Some(raw))] fail. *)
Definition try_get_raw (id : string) (m : Matches) : option (list OsString) :=
  match m_find id m with Some (_, raw) => Some raw | None => None end.

(** [ArgMatches::value_source]. *)
Definition value_source (id : string) (m : Matches) : option ValueSource :=
  match m_find id m with Some (src, _) => Some src | None => None end.

(** [ArgMatches::args_present]: some argument has an explicit source. *)
Definition args_present (m : Matches) : bool :=
  existsb (fun e => is_explicit (fst (snd e))) m.

(** [ArgMatches::ids]: the argument identifiers, then the identifier of the
    derived group [Context] once one of its members is present. *)
Definition ids (m : Matches) : list string :=
  (map fst m ++ (if args_present m then ["Context"] else []))%list.

(** ** The parser ([Command::get_matches_from]) *)

Section Parser.

Variable g : list Arg.
(** [args_override_self]: a repeated option overrides its earlier value
    instead of being an error. *)
Variable override_self : bool.

Definition find_long (name : string) : option Arg :=
  find (fun a => match arg_long a with Some l => String.eqb l name | None => false end) g.

Definition find_short (c : ascii) : option Arg :=
  find (fun a => match arg_short a with Some s => Ascii.eqb s c | None => false end) g.

Definition find_positional : option Arg :=
  find (fun a => match arg_kind a with Positional => true | _ => false end) g.

(** Records an explicit value of [a]. *)
Definition store (a : Arg) (v : OsString) (m : Matches) : result Matches ClapError :=
  if negb (arg_parser a v) then Err (InvalidValue (arg_id a) v)
  else match m_find (arg_id a) m with
       | Some _ =>
           if override_self then Ok (m_replace (arg_id a) (CommandLine, [v]) m)
           else Err (ArgumentConflict (arg_id a))
       | None => Ok (m ++ [(arg_id a, (CommandLine, [v]))])%list
       end.

(** A positional token: the single positional [dir] takes it once. *)
Definition store_positional (t : OsString) (m : Matches) : result Matches ClapError :=
  match find_positional with
  | Some a =>
      match m_find (arg_id a) m with
      | Some _ => Err (UnknownArgument t)
      | None => store a t m
      end
  | None => Err (UnknownArgument t)
  end.

(** A token that clap takes for a flag rather than for a value. *)
Definition looks_like_flag (t : OsString) : bool :=
  String.prefix "-" t && Nat.ltb 1 (String.length t).

(** A cluster of short flags [-abc]; an option letter takes the rest of
    the cluster (after an optional ['=']) or, when nothing is left, the
    next token, which is reported as the pending argument. *)
Fixpoint short_cluster (t : OsString) (cs : string) (m : Matches)
    : result (Matches * option Arg) ClapError :=
  match cs with
  | EmptyString => Ok (m, None)
  | String c cs' =>
      match find_short c with
      | None =>
          if Ascii.eqb c "h" then Err DisplayHelp
          else if Ascii.eqb c "V" then Err DisplayVersion
          else Err (UnknownArgument t)
      | Some a =>
          match arg_kind a with
          | Flag => m' <-! store a "true" m ;; short_cluster t cs' m'
          | Opt =>
              match cs' with
              | EmptyString => Ok (m, Some a)
              | String e v =>
                  let v' := if Ascii.eqb e "=" then v else cs' in
                  m' <-! store a v' m ;; Ok (m', None)
              end
          | Positional => Err (UnknownArgument t)
          end
      end
  end.

(** One token outside the [--] escape. *)
Definition step (t : OsString) (m : Matches) : result (Matches * option Arg) ClapError :=
  if String.prefix "--" t then
    let (name, attached) := split_eq (substring 2 (String.length t - 2) t) in
    match find_long name with
    | None =>
        if String.eqb name "help" then Err DisplayHelp
        else if String.eqb name "version" then Err DisplayVersion
        else Err (UnknownArgument t)
    | Some a =>
        match arg_kind a, attached with
        | Flag, None => m' <-! store a "true" m ;; Ok (m', None)
        | Flag, Some _ => Err (UnexpectedValue (arg_id a))
        | Opt, Some v => m' <-! store a v m ;; Ok (m', None)
        | Opt, None => Ok (m, Some a)
        | Positional, _ => Err (UnknownArgument t)
        end
    end
  else if looks_like_flag t then
    short_cluster t (substring 1 (String.length t - 1) t) m
  else m' <-! store_positional t m ;; Ok (m', None).

Fixpoint parse_tokens (escaped : bool) (ts : list OsString) (m : Matches)
    : result Matches ClapError :=
  match ts with
  | [] => Ok m
  | t :: rest =>
      if escaped then m' <-! store_positional t m ;; parse_tokens true rest m'
      else if String.eqb t "--" then parse_tokens true rest m
      else
        match step t m with
        | Err e => Err e
        | Ok (m', None) => parse_tokens false rest m'
        | Ok (m', Some a) =>
            match rest with
            | v :: rest' =>
                if looks_like_flag v then Err (NoValue (arg_id a))
                else m'' <-! store a v m' ;; parse_tokens false rest' m''
            | [] => Err (NoValue (arg_id a))
            end
        end
  end.

(** Defaults of the arguments not given, in declaration order. *)
Definition add_defaults (m : Matches) : Matches :=
  (m ++ flat_map (fun a =>
          match arg_default a, m_find (arg_id a) m with
          | Some d, None => [(arg_id a, (DefaultValue, [d]))]
          | _, _ => []
          end) g)%list.

Definition present_explicitly (id : string) (m : Matches) : bool :=
  match value_source id m with Some s => is_explicit s | None => false end.

(** [requires]: every argument given explicitly needs its required
    arguments given explicitly too (defaults do not count). *)
Definition first_missing (m : Matches) : option (string * string) :=
  find (fun p => negb (present_explicitly (snd p) m))
    (flat_map (fun a =>
       if present_explicitly (arg_id a) m
       then map (fun r => (arg_id a, r)) (arg_requires a) else []) g).

Definition validate (m : Matches) : result Matches ClapError :=
  match first_missing m with
  | Some (id, r) => Err (MissingRequired id r)
  | None => Ok m
  end.

(** [get_matches_from]: the first token is the binary name. *)
Definition get_matches_from (argv : list OsString) : result Matches ClapError :=
  let ts := match argv with [] => [] | _ :: ts => ts end in
  m <-! parse_tokens false ts [] ;; validate (add_defaults m).

End Parser.

(** ** The parameter set ([pub struct Context]) *)

Record Context := mkContext {
  dir : option OsString;
  disk_usage : DiskUsage;
  hidden : bool;
  no_git : bool;
  no_ignore : bool;
  follow : bool;
  icons : bool;
  level : option N;
  long : bool;
  pattern : option string;
  glob : bool;
  iglob : bool;
  prune : bool;
  scale : N;
  report : bool;
  human : bool;
  file_name : bool;
  sort : string;
  dirs_first : bool;
  threads : N;
  unit : PrefixKind;
  completions : option string;
  dirs_only : bool;
  no_color : bool;
  no_config : bool;
  suppress_size : bool;
  stdin_is_tty : bool;
  stdout_is_tty : bool;
  max_du_width : N;
  max_nlink_width : N
}.

Definition raw1 (id : string) (m : Matches) : option OsString :=
  match try_get_raw id m with Some (v :: _) => Some v | _ => None end.

(** [get_one::<bool>] of a [SetTrue] flag; [None] when the flag is absent. *)
Definition get_flag (id : string) (m : Matches) : option bool :=
  match raw1 id m with Some v => Some (String.eqb v "true") | None => None end.

(** An [Option<T>] field: absent is [Some None], an unparsable value [None]. *)
Definition get_optional {T} (parse : OsString -> option T) (id : string) (m : Matches)
    : option (option T) :=
  match raw1 id m with
  | None => Some None
  | Some v => match parse v with Some x => Some (Some x) | None => None end
  end.

Definition get_required {T} (parse : OsString -> option T) (id : string) (m : Matches)
    : option T :=
  v <-? raw1 id m ;; parse v.

(** [FromArgMatches::from_arg_matches] of the derived parser; [None] is its
    error. The skipped fields take the tty probes and [usize::default()]. *)
Definition from_arg_matches (env : Env) (m : Matches) : option Context :=
  dir <-? get_optional Some "dir" m ;;
  du <-? get_required parse_disk_usage "disk_usage" m ;;
  hidden <-? get_flag "hidden" m ;;
  no_git <-? get_flag "no_git" m ;;
  no_ignore <-? get_flag "no_ignore" m ;;
  follow <-? get_flag "follow" m ;;
  icons <-? get_flag "icons" m ;;
  level <-? get_optional parse_usize "level" m ;;
  long <-? get_flag "long" m ;;
  pattern <-? get_optional Some "pattern" m ;;
  glob <-? get_flag "glob" m ;;
  iglob <-? get_flag "iglob" m ;;
  prune <-? get_flag "prune" m ;;
  scale <-? get_required parse_usize "scale" m ;;
  report <-? get_flag "report" m ;;
  human <-? get_flag "human" m ;;
  file_name <-? get_flag "file_name" m ;;
  sort <-? get_required Some "sort" m ;;
  dirs_first <-? get_flag "dirs_first" m ;;
  threads <-? get_required parse_usize "threads" m ;;
  unit <-? get_required parse_prefix_kind "unit" m ;;
  completions <-? get_optional Some "completions" m ;;
  dirs_only <-? get_flag "dirs_only" m ;;
  no_color <-? get_flag "no_color" m ;;
  no_config <-? get_flag "no_config" m ;;
  suppress_size <-? get_flag "suppress_size" m ;;
  Some (mkContext dir du hidden no_git no_ignore follow icons level long pattern
          glob iglob prune scale report human file_name sort dirs_first threads
          unit completions dirs_only no_color no_config suppress_size
          (env_stdin_tty env) (env_stdout_tty env) 0%N 0%N).

(** [Self::command().get_matches_from(..)], with or without
    [args_override_self(true)]. *)
Definition command (env : Env) (override_self : bool) (argv : list OsString)
    : result Matches ClapError :=
  get_matches_from (grammar env) override_self argv.

(** ** [Context::init] *)

(** Modelled from the spec: [crate::utils::uniq] (outside src/),
    "deduplicated preserving first-seen order". *)
Fixpoint uniq_from (seen : list string) (l : list string) : list string :=
  match l with
  | [] => []
  | x :: l' => if member x seen then uniq_from seen l' else x :: uniq_from (x :: seen) l'
  end.

Definition uniq (l : list string) : list string := uniq_from [] l.

(** [Context::pick_args_from]: the raw values of [id] in [matches], each
    turned into the pair [["--<kebab>"; value]], pairs whose value is
    ["false"] dropped, flattened, then every ["true"] token dropped. *)
Definition pick_args_from (id : string) (matches : Matches) : list OsString :=
  match try_get_raw id matches with
  | Some raw =>
      let kebap := kebab id in
      filter (fun s => negb (String.eqb s "true"))
        (concat
           (filter (fun pair => negb (String.eqb (nth 1 pair "") "false"))
              (map (fun s => ["--" ++ kebap; s]) raw)))
  | None => []
  end.

(** The tokens one identifier contributes to the re-synthesised sequence
    (the body of the [for id in ids] loop). *)
Definition reconcile_id (user_args config_args : Matches) (id : string) : list OsString :=
  if String.eqb id "Context" then []
  else
    match (if String.eqb id "dir" then try_get_raw id user_args else None) with
    | Some raw => raw
    | None =>
        match value_source id user_args with
        | Some CommandLine => pick_args_from id user_args
        | Some _ => pick_args_from id config_args
        | None => pick_args_from id config_args
        end
    end.

(** The sequence handed to the second parse. *)
Definition resynthesize (user_args config_args : Matches) : list OsString :=
  "--" :: flat_map (reconcile_id user_args config_args)
            (uniq (ids user_args ++ ids config_args)%list).

(** [context::error::Error] (module outside src/); the clap errors carried
    by [ArgParse] and [Config] are not needed here. *)
Inductive Error :=
| ArgParse
| Config
| RegexDisabled
| PatternNotProvided
| Regex (msg : string).

(** What [Context::init] ends in: a parameter set, an [Err], or the exit of
    the process that [get_matches]/[get_matches_from] perform on a parse
    error. *)
Inductive Outcome :=
| Resolved (c : Context)
| Failed (e : Error)
| Exit (e : ClapError).

Definition map_err (e : Error) (r : option Context) : Outcome :=
  match r with Some c => Resolved c | None => Failed e end.

(** [Context::init]. [argv] is the process argument vector (binary name
    first); [config] is the token sequence of the configuration file
    ([config::read_config_to_string] then [config::parse], modules outside
    src/), [None] when there is no configuration file. *)
Definition init (env : Env) (argv : list OsString) (config : option (list OsString)) : Outcome :=
  match command env true argv with
  | Err e => Exit e
  | Ok user_args =>
      let no_config := match get_flag "no_config" user_args with
                       | Some b => b | None => false end in
      if no_config then map_err ArgParse (from_arg_matches env user_args)
      else
        match config with
        | Some raw_config_args =>
            match command env false raw_config_args with
            | Err e => Exit e
            | Ok config_args =>
                if negb (args_present user_args)
                then map_err Config (from_arg_matches env config_args)
                else
                  match command env false (resynthesize user_args config_args) with
                  | Err e => Exit e
                  | Ok clargs => map_err Config (from_arg_matches env clargs)
                  end
            end
        | None => map_err ArgParse (from_arg_matches env user_args)
        end
  end.

(** ** Filesystem handles ([ignore::DirEntry]) *)

(** [std::fs::FileType]: the seven kinds it can tell, and [FtOther] for one
    that none of its predicates recognises. *)
Inductive FileType :=
| FtDir | FtFile | FtSymlink | FtFifo | FtSocket | FtCharDevice | FtBlockDevice
| FtOther.

Definition is_dir (ft : FileType) : bool := match ft with FtDir => true | _ => false end.
Definition is_file (ft : FileType) : bool := match ft with FtFile => true | _ => false end.

Record DirEntry := mkDirEntry {
  de_path : OsString;
  de_file_name : OsString;
  de_file_type : option FileType;
  de_depth : nat;
  de_path_is_symlink : bool
}.

(** ** [Context::regex_predicate] *)

(** The [regex] crate: [Regex::new] and [Regex::is_match]. *)
Record RegexEngine := mkRegexEngine {
  Re : Type;
  regex_new : string -> result Re string;
  re_is_match : Re -> string -> bool
}.

Definition regex_predicate (E : RegexEngine) (ctx : Context)
    : result (DirEntry -> bool) Error :=
  if iglob ctx || glob ctx then Err RegexDisabled
  else
    match pattern ctx with
    | None => Err PatternNotProvided
    | Some p =>
        match regex_new E p with
        | Err msg => Err (Regex msg)
        | Ok re =>
            Ok (fun dir_entry =>
                  if match de_file_type dir_entry with
                     | Some ft => is_dir ft | None => false end
                  then true
                  else re_is_match E re (to_string_lossy (de_file_name dir_entry)))
        end
    end.

(** A regex engine for a subset of the [regex] crate's syntax, used for
    concrete runs: literals, [.], [^], [$], escaped punctuation, groups,
    alternation and the postfix operators [*], [+], [?]; matching is
    unanchored ([is_match] finds the pattern anywhere).  An unbalanced
    parenthesis and a repetition with no operand are syntax errors, as in
    the crate; classes, counted repetition and letter escapes are outside
    the subset and rejected.  Strings are UTF-8 bytes: [.] and a literal
    character each take one code point, and matches start at code-point
    boundaries. *)
Module MiniRegex.

Inductive regex :=
| RChar (c : ascii)
| RAny
| RStart
| REnd
| REmpty
| RCat (a b : regex)
| RAlt (a b : regex)
| RStar (a : regex).

Definition is_alnum (c : ascii) : bool :=
  let n := nat_of_ascii c in
  (Nat.leb 48 n && Nat.leb n 57) || (Nat.leb 65 n && Nat.leb n 90)
  || (Nat.leb 97 n && Nat.leb n 122).

(** The length of the UTF-8 sequence a byte leads (1 for a continuation
    byte, which never starts a match). *)
Definition char_len (c : ascii) : nat :=
  let b := nat_of_ascii c in
  if Nat.ltb b 192 then 1 else if Nat.ltb b 224 then 2 else if Nat.ltb b 240 then 3 else 4.

Definition is_boundary (c : ascii) : bool :=
  let b := nat_of_ascii c in Nat.ltb b 128 || Nat.leb 192 b.

(** The bytes of one literal character. *)
Fixpoint lit (cs : list ascii) : regex :=
  match cs with
  | [] => REmpty
  | [c] => RChar c
  | c :: cs' => RCat (RChar c) (lit cs')
  end.

Definition postfix (a : regex) (cs : list ascii) : regex * list ascii :=
  match cs with
  | "*"%char :: cs' => (RStar a, cs')
  | "+"%char :: cs' => (RCat a (RStar a), cs')
  | "?"%char :: cs' => (RAlt a REmpty, cs')
  | _ => (a, cs)
  end.

Fixpoint parse_alt (fuel : nat) (cs : list ascii) : result (regex * list ascii) string :=
  match fuel with
  | 0 => Err "pattern too long"
  | S fuel' =>
      match parse_seq fuel' cs with
      | Err e => Err e
      | Ok (r1, "|"%char :: rest) =>
          match parse_alt fuel' rest with
          | Err e => Err e
          | Ok (r2, rest') => Ok (RAlt r1 r2, rest')
          end
      | Ok (r1, rest) => Ok (r1, rest)
      end
  end
with parse_seq (fuel : nat) (cs : list ascii) : result (regex * list ascii) string :=
  match fuel with
  | 0 => Err "pattern too long"
  | S fuel' =>
      match cs with
      | [] => Ok (REmpty, cs)
      | "|"%char :: _ => Ok (REmpty, cs)
      | ")"%char :: _ => Ok (REmpty, cs)
      | _ =>
          match parse_atom fuel' cs with
          | Err e => Err e
          | Ok (a, rest) =>
              let (a', rest') := postfix a rest in
              match parse_seq fuel' rest' with
              | Err e => Err e
              | Ok (s, rest'') => Ok (RCat a' s, rest'')
              end
          end
      end
  end
with parse_atom (fuel : nat) (cs : list ascii) : result (regex * list ascii) string :=
  match fuel with
  | 0 => Err "pattern too long"
  | S fuel' =>
      match cs with
      | "("%char :: rest =>
          match parse_alt fuel' rest with
          | Err e => Err e
          | Ok (r, ")"%char :: rest') => Ok (r, rest')
          | Ok _ => Err "unclosed group"
          end
      | "."%char :: rest => Ok (RAny, rest)
      | "^"%char :: rest => Ok (RStart, rest)
      | "$"%char :: rest => Ok (REnd, rest)
      | "\"%char :: c :: rest =>
          if is_alnum c then Err "unsupported escape" else Ok (RChar c, rest)
      | "\"%char :: [] => Err "incomplete escape sequence"
      | "*"%char :: _ | "+"%char :: _ | "?"%char :: _ =>
          Err "repetition operator missing expression"
      | "["%char :: _ | "{"%char :: _ => Err "unsupported syntax"
      | c :: rest =>
          let k := pred (char_len c) in
          Ok (lit (c :: firstn k rest), skipn k rest)
      | [] => Err "empty atom"
      end
  end.

Definition compile (p : string) : result regex string :=
  let cs := list_ascii_of_string p in
  match parse_alt (8 * S (List.length cs)) cs with
  | Err e => Err e
  | Ok (r, []) => Ok r
  | Ok (_, _) => Err "unopened group"
  end.

(** End positions of the matches of [r] in [s] that start at [i]. *)
Fixpoint ends (r : regex) (s : list ascii) (i : nat) : list nat :=
  match r with
  | RChar c =>
      match nth_error s i with
      | Some d => if Ascii.eqb c d then [S i] else []
      | None => []
      end
  | RAny =>
      match nth_error s i with
      | Some d => if Ascii.eqb d "010"%char then [] else [i + char_len d]
      | None => []
      end
  | RStart => if Nat.eqb i 0 then [i] else []
  | REnd => if Nat.eqb i (List.length s) then [i] else []
  | REmpty => [i]
  | RCat a b => flat_map (ends b s) (ends a s i)
  | RAlt a b => (ends a s i ++ ends b s i)%list
  | RStar a =>
      let fix star (k j : nat) : list nat :=
        match k with
        | 0 => [j]
        | S k' => j :: flat_map (fun j' => if Nat.ltb j j' then star k' j' else [])
                         (ends a s j)
        end in
      star (S (List.length s)) i
  end.

Definition is_match (r : regex) (s : string) : bool :=
  let cs := list_ascii_of_string s in
  existsb (fun i => match nth_error cs i with
                    | Some c => is_boundary c
                    | None => true
                    end &&
                    match ends r cs i with [] => false | _ => true end)
    (seq 0 (S (List.length cs))).

Definition engine : RegexEngine := mkRegexEngine regex compile is_match.

End MiniRegex.

(** ** [Context::set_max_du_width] *)

Fixpoint digits_fuel (fuel : nat) (v : N) : N :=
  match fuel with
  | 0 => 0%N
  | S f => if (v =? 0)%N then 0%N else (1 + digits_fuel f (v / 10))%N
  end.

(** Modelled from the spec: [crate::utils::num_integral] (outside src/),
    the width of the disk-usage column, that is the number of integral
    decimal digits of a [u64] (at most 20). *)
Definition num_integral (value : N) : N := digits_fuel 20 value.

Definition with_max_du_width (c : Context) (w : N) : Context :=
  mkContext (dir c) (disk_usage c) (hidden c) (no_git c) (no_ignore c) (follow c)
    (icons c) (level c) (long c) (pattern c) (glob c) (iglob c) (prune c) (scale c)
    (report c) (human c) (file_name c) (sort c) (dirs_first c) (threads c) (unit c)
    (completions c) (dirs_only c) (no_color c) (no_config c) (suppress_size c)
    (stdin_is_tty c) (stdout_is_tty c) w (max_nlink_width c).

(** [&mut self] becomes the returned context. *)
Definition set_max_du_width (self : Context) (size : N) : Context :=
  if (size =? 0)%N then self
  else with_max_du_width self (num_integral size).

(** ** Entry snapshots ([Node], [TryFrom<(DirEntry, &Context)> for Node]) *)

(** The platform services [Node::try_from] calls: metadata, the link lookup,
    the [LS_COLORS] table and its styles, the two size computations of
    [FileSize], [Inode::try_from] and extended attributes. *)
Record Platform := mkPlatform {
  Metadata : Type;
  FileSize : Type;
  Style : Type;
  LsStyle : Type;
  LsColors : Type;
  Inode : Type;
  XAttrs : Type;
  IoError : Type;
  LsError : Type;
  dir_entry_metadata : DirEntry -> result Metadata IoError;
  read_link : OsString -> option OsString;
  get_ls_colors : result LsColors LsError;
  style_for_path_with_metadata : LsColors -> OsString -> option Metadata -> option LsStyle;
  to_ansi_term_style : LsStyle -> Style;
  style_default : Style;
  file_size_logical : Metadata -> PrefixKind -> N -> FileSize;
  file_size_physical : OsString -> Metadata -> PrefixKind -> N -> option FileSize;
  inode_try_from : Metadata -> option Inode;
  get_xattrs : DirEntry -> option XAttrs
}.

Section Snapshot.

Variable P : Platform.

Record Node := mkNode {
  dir_entry : DirEntry;
  metadata : Metadata P;
  file_size : option (FileSize P);
  style : option (Style P);
  symlink_target : option OsString;
  inode : option (Inode P);
  xattrs : option (XAttrs P)
}.

(** [Node::is_symlink]. *)
Definition is_symlink (n : Node) : bool :=
  match symlink_target n with Some _ => true | None => false end.

(** Modelled from the spec: [crate::fs::symlink_target] (outside src/),
    "resolve symlink target path (platform lookup); absence (not a symlink,
    or unreadable target) yields [None], not an error". *)
Definition fs_symlink_target (dir_entry : DirEntry) : option OsString :=
  if de_path_is_symlink dir_entry then read_link P (de_path dir_entry) else None.

(** [Node::try_from]; its error is the metadata failure that
    [tree::error::Error] wraps. *)
Definition node_try_from (dir_entry : DirEntry) (ctx : Context) : result Node (IoError P) :=
  let path := de_path dir_entry in
  let link_target := fs_symlink_target dir_entry in
  metadata <-! dir_entry_metadata P dir_entry ;;
  let style :=
    match get_ls_colors P with
    | Ok ls_colors =>
        match option_map (to_ansi_term_style P)
                (style_for_path_with_metadata P ls_colors path (Some metadata)) with
        | Some s => Some s
        | None => Some (style_default P)
        end
    | Err _ => None
    end in
  let file_type := de_file_type dir_entry in
  let file_size :=
    match file_type with
    | Some ft =>
        if is_file ft && negb (suppress_size ctx) then
          match disk_usage ctx with
          | Logical => Some (file_size_logical P metadata (unit ctx) (scale ctx))
          | Physical => file_size_physical P path metadata (unit ctx) (scale ctx)
          end
        else None
    | None => None
    end in
  let inode := inode_try_from P metadata in
  let xattrs := if long ctx then get_xattrs P dir_entry else None in
  Ok (mkNode dir_entry metadata file_size style link_target inode xattrs).

End Snapshot.

Arguments dir_entry {P} _.
Arguments metadata {P} _.
Arguments file_size {P} _.
Arguments style {P} _.
Arguments symlink_target {P} _.
Arguments inode {P} _.
Arguments xattrs {P} _.
Arguments is_symlink {P} _.

(** ** The remaining accessors and setters of [Context] *)

(** [Context::no_color]. *)
Definition ctx_no_color (self : Context) : bool :=
  no_color self || negb (stdout_is_tty self).

(** [Context::dir]: the root directory, ["."] when none was given. *)
Definition ctx_dir (self : Context) : OsString :=
  match dir self with Some pb => pb | None => "." end.

(** [usize::MAX] on a 64-bit target. *)
Definition usize_max : N := (2 ^ 64 - 1)%N.

(** [Context::level]. *)
Definition ctx_level (self : Context) : N :=
  match level self with Some l => l | None => usize_max end.

Definition with_max_nlink_width (c : Context) (w : N) : Context :=
  mkContext (dir c) (disk_usage c) (hidden c) (no_git c) (no_ignore c) (follow c)
    (icons c) (level c) (long c) (pattern c) (glob c) (iglob c) (prune c) (scale c)
    (report c) (human c) (file_name c) (sort c) (dirs_first c) (threads c) (unit c)
    (completions c) (dirs_only c) (no_color c) (no_config c) (suppress_size c)
    (stdin_is_tty c) (stdout_is_tty c) (max_du_width c) w.

(** [Context::set_max_nlink_width]. *)
Definition set_max_nlink_width (self : Context) (nlink : N) : Context :=
  with_max_nlink_width self (num_integral nlink).

(** ** [Context::overrides] *)

(** The [ignore] crate's overrides: the parse of one glob ([None] when it is
    well formed, else the error message) and [OverrideBuilder::build] of a
    root and its globs, each with the case-insensitivity it was added with. *)
Record OverrideEngine := mkOverrideEngine {
  Override : Type;
  glob_error : string -> option string;
  ob_build : OsString -> list (string * bool) -> result Override string
}.

(** [OverrideBuilder]: [case_insensitive] only affects the globs added
    after it is set. *)
Record OverrideBuilder := mkOverrideBuilder {
  ob_root : OsString;
  ob_globs : list (string * bool);
  ob_case_insensitive : bool
}.

Section Overrides.

Variable O : OverrideEngine.

Definition ob_new (root : OsString) : OverrideBuilder := mkOverrideBuilder root [] false.

Definition ob_add (b : OverrideBuilder) (glob : string) : result OverrideBuilder string :=
  match glob_error O glob with
  | Some e => Err e
  | None => Ok (mkOverrideBuilder (ob_root b)
                 (ob_globs b ++ [(glob, ob_case_insensitive b)])%list
                 (ob_case_insensitive b))
  end.

Definition ob_set_case_insensitive (b : OverrideBuilder) (yes : bool) : OverrideBuilder :=
  mkOverrideBuilder (ob_root b) (ob_globs b) yes.

Definition ob_finish (b : OverrideBuilder) : result (Override O) string :=
  ob_build O (ob_root b) (ob_globs b).

(** [Context::overrides]; its error is the [ignore] error that [?] wraps. *)
Definition overrides (self : Context) : result (Override O) string :=
  let builder := ob_new (ctx_dir self) in
  builder <-! (if no_git self then ob_add builder "!.git" else Ok builder) ;;
  if negb (glob self) && negb (iglob self) then ob_finish builder
  else
    let builder := if iglob self then ob_set_case_insensitive builder true else builder in
    builder <-! (match pattern self with Some p => ob_add builder p | None => Ok builder end) ;;
    ob_finish builder.

End Overrides.

(** ** The remaining accessors of [Node] *)

Section NodeAccessors.

Variable P : Platform.

(** [Node::file_type]. *)
Definition node_file_type (n : Node P) : option FileType := de_file_type (dir_entry n).

(** [Node::is_dir]. *)
Definition node_is_dir (n : Node P) : bool :=
  match node_file_type n with Some ft => is_dir ft | None => false end.

(** [Node::set_file_size]; [&mut self] becomes the returned node. *)
Definition set_file_size (n : Node P) (size : FileSize P) : Node P :=
  mkNode P (dir_entry n) (metadata n) (Some size) (style n) (symlink_target n)
    (inode n) (xattrs n).

(** [Node::has_xattrs], given the number of attributes a set holds. *)
Definition has_xattrs (count : XAttrs P -> nat) (n : Node P) : bool :=
  Nat.ltb 0 (match xattrs n with Some x => count x | None => 0 end).

(** [Node::file_type_identifier] on Unix. *)
Definition file_type_identifier_unix (n : Node P) : option string :=
  file_type <-? node_file_type n ;;
  match file_type with
  | FtDir => Some "d"
  | FtFile => Some "-"
  | FtSymlink => Some "l"
  | FtFifo => Some "p"
  | FtSocket => Some "s"
  | FtCharDevice => Some "c"
  | FtBlockDevice => Some "b"
  | FtOther => None
  end.

(** [Node::file_type_identifier] elsewhere. *)
Definition file_type_identifier_other (n : Node P) : option string :=
  file_type <-? node_file_type n ;;
  match file_type with
  | FtDir => Some "d"
  | FtFile => Some "-"
  | FtSymlink => Some "l"
  | _ => None
  end.

End NodeAccessors.

Arguments node_file_type {P} _.
Arguments node_is_dir {P} _.
Arguments set_file_size {P} _ _.
Arguments has_xattrs {P} _ _.
Arguments file_type_identifier_unix {P} _.
Arguments file_type_identifier_other {P} _.

(** ** Invariants of the parser's matches *)

(** Every identifier in [m] belongs to an argument of [g] and holds one
    value, which that argument's value parser accepts or is its default. *)
Definition matches_inv (g : list Arg) (m : Matches) : Prop :=
  forall id src vs, m_find id m = Some (src, vs) ->
  exists a v, In a g /\ arg_id a = id /\ vs = [v] /\
              (arg_parser a v = true \/ arg_default a = Some v).

(** Every argument of [g] with a default is in [m]. *)
Definition matches_full (g : list Arg) (m : Matches) : Prop :=
  forall a d, In a g -> arg_default a = Some d -> m_find (arg_id a) m <> None.

(** A step's matches satisfy [matches_inv] and its pending argument is one
    of [g]. *)
Definition step_inv (g : list Arg) (r : Matches * option Arg) : Prop :=
  matches_inv g (fst r) /\ (forall a, snd r = Some a -> In a g).

(** What [from_arg_matches] needs of the matches of [grammar env]. *)
Definition wf_matches (env : Env) (m : Matches) : Prop :=
  matches_inv (grammar env) m /\ matches_full (grammar env) m.

(** Default entries hold their argument's default, and an explicit entry
    of a flag holds ["true"]. *)
Definition source_inv (g : list Arg) (m : Matches) : Prop :=
  forall id src vs, m_find id m = Some (src, vs) ->
  exists a v, In a g /\ arg_id a = id /\ vs = [v] /\
    match src with
    | DefaultValue => arg_default a = Some v
    | _ => arg_kind a = Flag -> v = "true"
    end.

(** A step's matches satisfy [source_inv] and its pending argument is an
    option of [g]. *)
Definition step_source_inv (g : list Arg) (r : Matches * option Arg) : Prop :=
  source_inv g (fst r) /\ (forall a, snd r = Some a -> In a g /\ arg_kind a = Opt).

Definition dummy_arg : Arg := mkArg "" Positional None None None [] (fun _ => false).

(** ** Concrete inputs *)

(** An environment for concrete runs. [SortType]'s value names and the
    three enum defaults live outside src/; the ones here are sample values
    (no statement below depends on them). *)
Definition env0 : Env := mkEnv Physical Bin ["name"; "size"; "size-rev"] "name" false false.

(** The matches of a parse, or no matches when it fails. *)
Definition matches_of (r : result Matches ClapError) : Matches :=
  match r with Ok m => m | Err _ => [] end.

(** A parameter set with everything at its default but the pattern and
    its two glob modes. *)
Definition ctx_with_pattern (p : option string) (glob_on iglob_on : bool) : Context :=
  mkContext None Physical false false false false false None false p glob_on iglob_on
    false 2 false false false "name" false 3 Bin None false false false false
    false false 0 0.

Definition entry (name : string) (ft : FileType) : DirEntry :=
  mkDirEntry ("./" ++ name) name (Some ft) 1 false.

(** A platform for concrete runs: metadata is the length of the path, a
    colour table styles [.rs] files, physical sizes are unavailable, and
    [table_loads] says whether [LS_COLORS] could be loaded. *)
Definition demo_platform (table_loads : bool) : Platform :=
  mkPlatform N N string string (list string) N Datatypes.unit Datatypes.unit Datatypes.unit
    (fun de => Ok (N.of_nat (String.length (de_path de))))
    (fun _ => Some "target")
    (if table_loads then Ok ["bold"] else Err tt)
    (fun tbl path _ =>
       if String.eqb (substring (String.length path - 3) 3 path) ".rs"
       then hd_error tbl else None)
    (fun s => s) "plain"
    (fun md _ _ => md)
    (fun _ _ _ _ => None)
    (fun md => Some md)
    (fun _ => None).

(** * Properties *)

(** ** Re-synthesis of one identifier ([pick_args_from]) *)

Definition emit_token (k s : OsString) : list OsString :=
  if String.eqb s "false" then []
  else if String.eqb s "true" then ["--" ++ k] else ["--" ++ k; s].

Lemma pick_tokens_flat_map : forall k raw,
  filter (fun s => negb (String.eqb s "true"))
    (concat (filter (fun pair => negb (String.eqb (nth 1 pair "") "false"))
               (map (fun s => ["--" ++ k; s]) raw)))
  = flat_map (emit_token k) raw.
Proof.
  intros k raw. induction raw as [| s raw IH]; [reflexivity |].
  simpl. unfold emit_token.
  destruct (String.eqb s "false") eqn:Hf; simpl.
  - exact IH.
  - destruct (String.eqb s "true") eqn:Ht; cbn in IH |- *; rewrite ?Ht; cbn;
      rewrite IH; reflexivity.
Qed.

Lemma emit_token_not_bool : forall k s t,
  In t (emit_token k s) -> t <> "true" /\ t <> "false".
Proof.
  intros k s t. unfold emit_token.
  destruct (String.eqb s "false") eqn:Hf; [intros [] |].
  destruct (String.eqb s "true") eqn:Ht; simpl.
  - intros [<- | []]; split; discriminate.
  - intros [<- | [<- | []]]; [split; discriminate |].
    apply String.eqb_neq in Hf. apply String.eqb_neq in Ht. auto.
Qed.

(** C4: a winning raw token is emitted as the flag [--<id with _ turned
    into ->] followed by its value, except that a ["false"] value drops the
    pair and a ["true"] value drops the value but keeps the flag; hence the
    emitted tokens never contain a ["true"] or ["false"] value token. *)
Theorem pick_args_from_emits : forall id m,
  pick_args_from id m =
    match try_get_raw id m with
    | Some raw =>
        flat_map (fun s => if String.eqb s "false" then []
                           else if String.eqb s "true" then ["--" ++ kebab id]
                           else ["--" ++ kebab id; s]) raw
    | None => []
    end
  /\ (forall t, In t (pick_args_from id m) -> t <> "true" /\ t <> "false").
Proof.
  intros id m. unfold pick_args_from.
  destruct (try_get_raw id m) as [raw |]; [| split; [reflexivity | intros t []]].
  rewrite pick_tokens_flat_map. split; [reflexivity |].
  intros t Hin. apply in_flat_map in Hin as [s [_ Hs]].
  exact (emit_token_not_bool _ _ _ Hs).
Qed.

(** ** Bare invocation *)

(** C5: with a configuration file and no user token at all, [init] is the
    parse of the configuration tokens alone turned into a [Context]; the
    re-synthesis is not run. *)
Theorem init_bare_invocation : forall env bin config,
  init env [bin] (Some config) =
    match command env false config with
    | Err e => Exit e
    | Ok config_args => map_err Config (from_arg_matches env config_args)
    end.
Proof.
  intros [du un sv sd ti to] bin config. reflexivity.
Qed.

(** ** Precedence of command-line values *)

(** C1: the command line sets [--pattern false] explicitly, yet the
    resolved parameter set has no pattern: [pick_args_from] drops every
    pair whose value is ["false"], not only those of boolean flags.  With
    [--pattern true] the value token is dropped and the second parse
    stops the process on an option left without its value. *)
Theorem init_pattern_false_dropped :
  value_source "pattern" (matches_of (command env0 true ["et"; "--pattern"; "false"]))
    = Some CommandLine
  /\ try_get_raw "pattern" (matches_of (command env0 true ["et"; "--pattern"; "false"]))
    = Some ["false"]
  /\ match init env0 ["et"; "--pattern"; "false"] (Some ["--"]) with
     | Resolved c => pattern c = None
     | _ => False
     end
  /\ init env0 ["et"; "--pattern"; "true"] (Some ["--"]) = Exit (NoValue "pattern").
Proof. vm_compute. repeat split. Qed.

(** ** Dependencies between parameters *)

(** C2: [--no-git] on the command line fails with the dependency error
    even when the configuration supplies [--hidden]. *)
Lemma init_no_git_config_hidden_fails :
  value_source "hidden" (matches_of (command env0 false ["--"; "--hidden"]))
    = Some CommandLine
  /\ init env0 ["et"; "--no-git"] (Some ["--"; "--hidden"])
    = Exit (MissingRequired "no_git" "hidden").
Proof. vm_compute. split; reflexivity. Qed.

(** C2 (as amended): the first parse validates the command-line tokens
    alone, before the configuration is read, so [--no-git] without
    [--hidden] on the command line ends in the dependency error whatever
    the configuration (one that supplies [--hidden], or none). *)
Theorem init_no_git_requires_hidden_on_command_line : forall env bin config,
  init env [bin; "--no-git"] config = Exit (MissingRequired "no_git" "hidden").
Proof.
  intros [du un sv sd ti to] bin config. reflexivity.
Qed.

(** ** The target-directory positional *)

(** C3: when the command line gives no directory but the configuration
    does, the merge re-spells the configuration's positional directory as
    [--dir], an option the grammar does not have, so the second parse exits;
    with no command-line arguments at all the same configuration resolves
    the directory. *)
Theorem init_config_dir_respelled :
  let user_args := matches_of (command env0 true ["et"; "--hidden"]) in
  let config_args := matches_of (command env0 false ["--"; "cfgdir"]) in
  try_get_raw "dir" user_args = None
  /\ try_get_raw "dir" config_args = Some ["cfgdir"]
  /\ reconcile_id user_args config_args "dir" = ["--dir"; "cfgdir"]
  /\ init env0 ["et"; "--hidden"] (Some ["--"; "cfgdir"]) = Exit (UnknownArgument "--dir")
  /\ match init env0 ["et"] (Some ["--"; "cfgdir"]) with
     | Resolved ctx => dir ctx = Some "cfgdir"
     | _ => False
     end.
Proof. vm_compute. repeat split. Qed.

(** ** The regex predicate *)

(** C6: a pattern the regex crate rejects, with both glob modes off: no
    predicate is returned but the compile error. *)
Lemma regex_predicate_bad_pattern :
  regex_predicate MiniRegex.engine (ctx_with_pattern (Some "(") false false)
    = Err (Regex "unclosed group").
Proof. vm_compute. reflexivity. Qed.

(** C6 (as amended): [regex_predicate] fails with [RegexDisabled] when a
    glob mode is on, with [PatternNotProvided] when there is no pattern,
    with the compile error when the pattern does not compile, and otherwise
    returns a predicate that accepts every directory and a non-directory
    exactly when its (lossily decoded) name matches the pattern. *)
Theorem regex_predicate_spec : forall (E : RegexEngine) ctx,
  (iglob ctx || glob ctx = true -> regex_predicate E ctx = Err RegexDisabled)
  /\ (iglob ctx = false -> glob ctx = false -> pattern ctx = None ->
      regex_predicate E ctx = Err PatternNotProvided)
  /\ (forall p msg, iglob ctx = false -> glob ctx = false -> pattern ctx = Some p ->
      regex_new E p = Err msg -> regex_predicate E ctx = Err (Regex msg))
  /\ (forall p re, iglob ctx = false -> glob ctx = false -> pattern ctx = Some p ->
      regex_new E p = Ok re ->
      exists pred, regex_predicate E ctx = Ok pred
        /\ forall de,
             pred de = match de_file_type de with
                       | Some FtDir => true
                       | _ => re_is_match E re (to_string_lossy (de_file_name de))
                       end).
Proof.
  intros E ctx. unfold regex_predicate.
  repeat split.
  - intros H. rewrite H. reflexivity.
  - intros Hi Hg Hp. rewrite Hi, Hg, Hp. reflexivity.
  - intros p msg Hi Hg Hp Hr. rewrite Hi, Hg, Hp, Hr. reflexivity.
  - intros p re Hi Hg Hp Hr. rewrite Hi, Hg, Hp, Hr.
    eexists. split; [reflexivity |].
    intros de. cbv beta. destruct (de_file_type de) as [[] |]; reflexivity.
Qed.

Lemma regex_predicate_spec_witness :
  regex_predicate MiniRegex.engine (ctx_with_pattern (Some "\.rs$") false true)
    = Err RegexDisabled
  /\ exists pred,
       regex_predicate MiniRegex.engine (ctx_with_pattern (Some "\.rs$") false false) = Ok pred
       /\ pred (entry "src" FtDir) = true
       /\ pred (entry "main.rs" FtFile) = true
       /\ pred (entry "main.py" FtFile) = false.
Proof.
  split.
  - apply (proj1 (regex_predicate_spec MiniRegex.engine
                    (ctx_with_pattern (Some "\.rs$") false true))).
    reflexivity.
  - destruct (proj2 (proj2 (proj2 (regex_predicate_spec MiniRegex.engine
                    (ctx_with_pattern (Some "\.rs$") false false))))
                "\.rs$"
                (MiniRegex.RCat (MiniRegex.RChar ".")
                   (MiniRegex.RCat (MiniRegex.RChar "r")
                      (MiniRegex.RCat (MiniRegex.RChar "s")
                         (MiniRegex.RCat MiniRegex.REnd MiniRegex.REmpty))))
                eq_refl eq_refl eq_refl eq_refl) as [pred [Hok Hpred]].
    exists pred. split; [exact Hok |].
    rewrite !Hpred. vm_compute. split; [reflexivity | split; reflexivity].
Defined.

(** ** Entry snapshots *)

(** C7: the size of a fresh snapshot is [None] unless the entry is a
    regular file and sizes are not suppressed; then logical mode gives the
    logical size from the metadata and physical mode whatever the physical
    computation gives, which may be [None]. *)
Theorem node_file_size : forall P ctx de n,
  node_try_from P de ctx = Ok n ->
  ((de_file_type de <> Some FtFile \/ suppress_size ctx = true) -> file_size n = None)
  /\ (de_file_type de = Some FtFile -> suppress_size ctx = false -> disk_usage ctx = Logical ->
      file_size n = Some (file_size_logical P (metadata n) (unit ctx) (scale ctx)))
  /\ (de_file_type de = Some FtFile -> suppress_size ctx = false -> disk_usage ctx = Physical ->
      file_size n = file_size_physical P (de_path de) (metadata n) (unit ctx) (scale ctx)).
Proof.
  intros P ctx de n H. unfold node_try_from in H.
  destruct (dir_entry_metadata P de) as [md | e]; [| discriminate].
  injection H as <-. simpl. repeat split.
  - intros [Hft | Hs].
    + destruct (de_file_type de) as [[] |]; try reflexivity. contradiction.
    + rewrite Hs. destruct (de_file_type de) as [ft |]; [| reflexivity].
      rewrite andb_false_r. reflexivity.
  - intros Hft Hs Hdu. rewrite Hft, Hs, Hdu. reflexivity.
  - intros Hft Hs Hdu. rewrite Hft, Hs, Hdu. reflexivity.
Qed.

Lemma node_file_size_witness :
  match node_try_from (demo_platform true) (entry "main.rs" FtFile)
          (ctx_with_pattern None false false),
        node_try_from (demo_platform true) (entry "src" FtDir)
          (ctx_with_pattern None false false) with
  | Ok f, Ok d => file_size f = None /\ file_size d = None
  | _, _ => False
  end.
Proof.
  destruct (node_try_from (demo_platform true) (entry "main.rs" FtFile)
              (ctx_with_pattern None false false)) as [f | e] eqn:Hf;
    [| discriminate].
  destruct (node_try_from (demo_platform true) (entry "src" FtDir)
              (ctx_with_pattern None false false)) as [d | e] eqn:Hd;
    [| discriminate].
  split.
  - rewrite (proj2 (proj2 (node_file_size _ _ _ _ Hf)) eq_refl eq_refl eq_refl).
    reflexivity.
  - apply (proj1 (node_file_size _ _ _ _ Hd)). left. discriminate.
Defined.

(** C8: a snapshot's symlink target is the result of the link lookup, so
    a non-symlink has none; [is_symlink] holds exactly when a target is
    present, and depends on nothing else of the snapshot. *)
Theorem node_symlink_target : forall P ctx de n,
  node_try_from P de ctx = Ok n ->
  symlink_target n = fs_symlink_target P de
  /\ (de_path_is_symlink de = false -> symlink_target n = None)
  /\ (is_symlink n = true <-> exists t, symlink_target n = Some t)
  /\ (forall n' : Node P, symlink_target n' = symlink_target n -> is_symlink n' = is_symlink n).
Proof.
  intros P ctx de n H. unfold node_try_from in H.
  destruct (dir_entry_metadata P de) as [md | e]; [| discriminate].
  injection H as Hn.
  assert (Ht : symlink_target n = fs_symlink_target P de) by (rewrite <- Hn; reflexivity).
  split; [exact Ht |]. split; [| split].
  - intros Hs. rewrite Ht. unfold fs_symlink_target. rewrite Hs. reflexivity.
  - unfold is_symlink. destruct (symlink_target n) as [t |].
    + split; [intros _; exists t; reflexivity | reflexivity].
    + split; [discriminate | intros [t Ht']; discriminate].
  - intros n' Heq. unfold is_symlink. rewrite Heq. reflexivity.
Qed.

Lemma node_symlink_target_witness :
  match node_try_from (demo_platform true) (entry "main.rs" FtFile)
          (ctx_with_pattern None false false),
        node_try_from (demo_platform true) (mkDirEntry "./ln" "ln" (Some FtSymlink) 1 true)
          (ctx_with_pattern None false false) with
  | Ok f, Ok l => symlink_target f = None /\ is_symlink f = false
                  /\ symlink_target l = Some "target" /\ is_symlink l = true
  | _, _ => False
  end.
Proof.
  destruct (node_try_from (demo_platform true) (entry "main.rs" FtFile)
              (ctx_with_pattern None false false)) as [f | e] eqn:Hf;
    [| discriminate].
  destruct (node_try_from (demo_platform true) (mkDirEntry "./ln" "ln" (Some FtSymlink) 1 true)
              (ctx_with_pattern None false false)) as [l | e] eqn:Hl;
    [| discriminate].
  destruct (node_symlink_target _ _ _ _ Hf) as [_ [Hf2 [_ _]]].
  destruct (node_symlink_target _ _ _ _ Hl) as [Hl1 [_ [Hl3 _]]].
  assert (Hfn : symlink_target f = None) by (apply Hf2; reflexivity).
  assert (Hln : symlink_target l = Some "target") by (rewrite Hl1; reflexivity).
  split; [exact Hfn |]. split; [unfold is_symlink; rewrite Hfn; reflexivity |].
  split; [exact Hln |]. apply Hl3. exists "target". exact Hln.
Defined.

(** C9: when the colour table cannot be loaded the snapshot is still
    built (given its metadata) with no style; when it loads, the style is
    the table's style for the path and metadata, or the unstyled default
    when the table has none. *)
Theorem node_style : forall P ctx de md,
  dir_entry_metadata P de = Ok md ->
  (forall e, get_ls_colors P = Err e ->
     exists n, node_try_from P de ctx = Ok n /\ style n = None)
  /\ (forall ls, get_ls_colors P = Ok ls ->
     exists n, node_try_from P de ctx = Ok n
       /\ style n = Some (match style_for_path_with_metadata P ls (de_path de) (Some md) with
                          | Some s => to_ansi_term_style P s
                          | None => style_default P
                          end)).
Proof.
  intros P ctx de md Hmd. unfold node_try_from. rewrite Hmd. split.
  - intros e He. rewrite He. eexists. split; reflexivity.
  - intros ls Hls. rewrite Hls. eexists. split; [reflexivity |]. simpl.
    destruct (style_for_path_with_metadata P ls (de_path de) (Some md)); reflexivity.
Qed.

Lemma node_style_witness :
  (exists n, node_try_from (demo_platform false) (entry "main.rs" FtFile)
               (ctx_with_pattern None false false) = Ok n /\ style n = None)
  /\ (exists n, node_try_from (demo_platform true) (entry "main.py" FtFile)
               (ctx_with_pattern None false false) = Ok n /\ style n = Some "plain").
Proof.
  split.
  - apply (proj1 (node_style (demo_platform false) (ctx_with_pattern None false false)
                    (entry "main.rs" FtFile) 9%N eq_refl) tt eq_refl).
  - apply (proj2 (node_style (demo_platform true) (ctx_with_pattern None false false)
                    (entry "main.py" FtFile) 9%N eq_refl) ["bold"] eq_refl).
Defined.

(** ** The disk-usage width setter *)

Lemma digits_fuel_zero : forall f, digits_fuel f 0 = 0%N.
Proof. intros [| f]; reflexivity. Qed.

Lemma digits_fuel_bounds : forall f v,
  (0 < v)%N -> (v < 10 ^ N.of_nat f)%N ->
  (1 <= digits_fuel f v)%N
  /\ (10 ^ (digits_fuel f v - 1) <= v < 10 ^ digits_fuel f v)%N.
Proof.
  induction f as [| f IH]; intros v Hpos Hlt.
  - simpl in Hlt. lia.
  - cbn [digits_fuel]. destruct (N.eqb_spec v 0) as [-> | Hv]; [lia |].
    rewrite Nat2N.inj_succ, N.pow_succ_r in Hlt by lia.
    pose proof (N.div_mod v 10 ltac:(lia)) as Hdm.
    pose proof (N.mod_lt v 10 ltac:(lia)) as Hmod.
    destruct (N.eqb_spec (N.div v 10) 0) as [Hq | Hq].
    + rewrite Hq, digits_fuel_zero. simpl. change (N.pos (10 ^ 1)) with 10%N. lia.
    + assert (Hq' : (v / 10 < 10 ^ N.of_nat f)%N).
      { clear IH. generalize dependent (N.pow 10 (N.of_nat f)).
        generalize dependent (N.div v 10). generalize dependent (N.modulo v 10).
        intros. lia. }
      destruct (IH (N.div v 10) ltac:(lia) Hq') as [Hd [Hlo Hhi]].
      set (d := digits_fuel f (N.div v 10)) in *.
      replace (1 + d - 1)%N with d by lia.
      assert (Hpow : (10 ^ d = 10 * 10 ^ (d - 1))%N).
      { rewrite <- N.pow_succ_r by lia. f_equal. lia. }
      assert (Hpow' : (10 ^ (1 + d) = 10 * 10 ^ d)%N).
      { rewrite N.add_comm, N.add_1_r. apply N.pow_succ_r. lia. }
      rewrite Hpow'. clear IH Hq' Hpow'.
      generalize dependent (N.pow 10 d). generalize dependent (N.pow 10 (d - 1)).
      generalize dependent (N.pow 10 (N.of_nat f)).
      generalize dependent (N.div v 10). generalize dependent (N.modulo v 10).
      intros. lia.
Qed.

(** C10: with [size = 0] the setter changes nothing; otherwise it sets
    [max_du_width] to [num_integral size], which for a [u64] is its number
    of decimal digits, and every other field keeps its value. *)
Theorem set_max_du_width_spec : forall ctx size,
  (size = 0%N -> set_max_du_width ctx size = ctx)
  /\ (size <> 0%N ->
      max_du_width (set_max_du_width ctx size) = num_integral size
      /\ with_max_du_width (set_max_du_width ctx size) 0 = with_max_du_width ctx 0)
  /\ (size <> 0%N -> (size < 2 ^ 64)%N ->
      let w := max_du_width (set_max_du_width ctx size) in
      (10 ^ (w - 1) <= size < 10 ^ w)%N).
Proof.
  intros ctx size. unfold set_max_du_width.
  destruct (N.eqb_spec size 0) as [Hz | Hz].
  - split; [reflexivity | split; intros H; contradiction].
  - split; [intros H; contradiction |]. split.
    + intros _. split; reflexivity.
    + intros _ Hlt. simpl. unfold num_integral.
      assert (H64 : (2 ^ 64 < 10 ^ N.of_nat 20)%N) by (vm_compute; reflexivity).
      apply (digits_fuel_bounds 20 size); lia.
Qed.

Lemma set_max_du_width_spec_witness :
  max_du_width (set_max_du_width (ctx_with_pattern None false false) 12345) = 5%N
  /\ (10 ^ 4 <= 12345 < 10 ^ 5)%N
  /\ set_max_du_width (ctx_with_pattern None false false) 0 = ctx_with_pattern None false false.
Proof.
  split; [| split].
  - exact (proj1 (proj1 (proj2 (set_max_du_width_spec (ctx_with_pattern None false false) 12345))
                   ltac:(discriminate))).
  - exact (proj2 (proj2 (set_max_du_width_spec (ctx_with_pattern None false false) 12345))
             ltac:(discriminate) ltac:(vm_compute; reflexivity)).
  - exact (proj1 (set_max_du_width_spec (ctx_with_pattern None false false) 0) eq_refl).
Defined.

(** ** The rest of [Context] and [Node] *)

Lemma m_find_cons : forall id j x m,
  m_find id ((j, x) :: m) = if String.eqb j id then Some x else m_find id m.
Proof. intros. unfold m_find. simpl. destruct (String.eqb j id); reflexivity. Qed.

Lemma m_find_app : forall id m1 m2,
  m_find id (m1 ++ m2)%list =
  match m_find id m1 with Some x => Some x | None => m_find id m2 end.
Proof.
  intros id m1 m2. induction m1 as [| [j x] m1 IH]; [reflexivity |].
  simpl. rewrite !m_find_cons. destruct (String.eqb j id); [reflexivity | exact IH].
Qed.

Lemma m_find_replace : forall id i w m,
  m_find id (m_replace i w m) =
  if String.eqb i id then match m_find i m with Some _ => Some w | None => None end
  else m_find id m.
Proof.
  intros id i w m. induction m as [| [j x] m IH].
  - simpl. destruct (String.eqb i id); reflexivity.
  - simpl. destruct (String.eqb_spec j i) as [-> | Hji].
    + rewrite !m_find_cons. rewrite String.eqb_refl.
      destruct (String.eqb i id); reflexivity.
    + rewrite !m_find_cons. rewrite IH.
      destruct (String.eqb_spec i id) as [<- | Hii].
      * destruct (String.eqb_spec j i); [congruence | reflexivity].
      * reflexivity.
Qed.

Lemma m_find_in : forall id m x, m_find id m = Some x -> In (id, x) m.
Proof.
  intros id m x. induction m as [| [j y] m IH]; [discriminate |].
  rewrite m_find_cons. destruct (String.eqb_spec j id) as [-> | _].
  - intros H; injection H as ->; left; reflexivity.
  - intros H; right; exact (IH H).
Qed.

Lemma in_m_find : forall id m x, In (id, x) m -> m_find id m <> None.
Proof.
  intros id m x. induction m as [| [j y] m IH]; [contradiction |].
  rewrite m_find_cons. intros [H | H].
  - injection H as -> ->. rewrite String.eqb_refl. discriminate.
  - destruct (String.eqb j id); [discriminate | exact (IH H)].
Qed.

Lemma matches_inv_nil : forall g, matches_inv g [].
Proof. intros g id src vs H. discriminate. Qed.

Lemma matches_inv_store : forall g ovr a v m m',
  In a g -> matches_inv g m -> store ovr a v m = Ok m' -> matches_inv g m'.
Proof.
  intros g ovr a v m m' Ha Hm Hs. unfold store in Hs.
  destruct (arg_parser a v) eqn:Hp; [| discriminate]. simpl in Hs.
  destruct (m_find (arg_id a) m) as [x |] eqn:Hf.
  - destruct ovr; [| discriminate]. injection Hs as <-.
    intros id src vs H. rewrite m_find_replace, Hf in H.
    destruct (String.eqb_spec (arg_id a) id) as [<- | _].
    + injection H as <- <-. exists a, v. auto.
    + exact (Hm _ _ _ H).
  - injection Hs as <-. intros id src vs H. rewrite m_find_app in H.
    destruct (m_find id m) eqn:Hf'.
    + injection H as ->. exact (Hm _ _ _ Hf').
    + rewrite m_find_cons in H. destruct (String.eqb_spec (arg_id a) id) as [<- | _];
        [| discriminate].
      injection H as <- <-. exists a, v. auto.
Qed.

Lemma find_in : forall (f : Arg -> bool) g a, find f g = Some a -> In a g.
Proof. intros f g a H. exact (proj1 (find_some f g H)). Qed.

Lemma matches_inv_store_positional : forall g ovr t m m',
  matches_inv g m -> store_positional g ovr t m = Ok m' -> matches_inv g m'.
Proof.
  intros g ovr t m m' Hm Hs. unfold store_positional in Hs.
  destruct (find_positional g) as [a |] eqn:Hp; [| discriminate].
  destruct (m_find (arg_id a) m); [discriminate |].
  exact (matches_inv_store g ovr a t m m' (find_in _ _ _ Hp) Hm Hs).
Qed.

Lemma step_inv_short_cluster : forall g ovr t cs m r,
  matches_inv g m -> short_cluster g ovr t cs m = Ok r -> step_inv g r.
Proof.
  intros g ovr t cs. induction cs as [| c cs IH]; intros m r Hm Hs; simpl in Hs.
  - injection Hs as <-. split; [exact Hm | discriminate].
  - destruct (find_short g c) as [a |] eqn:Ha;
      [| destruct (Ascii.eqb c "h"), (Ascii.eqb c "V"); discriminate].
    pose proof (find_in _ _ _ Ha) as Hin.
    destruct (arg_kind a).
    + discriminate.
    + destruct (store ovr a "true" m) as [m' |] eqn:Hst; [| discriminate].
      exact (IH m' r (matches_inv_store _ _ _ _ _ _ Hin Hm Hst) Hs).
    + destruct cs as [| e v].
      * injection Hs as <-. split; [exact Hm | intros a' H; injection H as <-; exact Hin].
      * destruct (store ovr a _ m) as [m' |] eqn:Hst; [| discriminate].
        injection Hs as <-. split; [exact (matches_inv_store _ _ _ _ _ _ Hin Hm Hst) | discriminate].
Qed.

Lemma step_inv_step : forall g ovr t m r,
  matches_inv g m -> step g ovr t m = Ok r -> step_inv g r.
Proof.
  intros g ovr t m r Hm Hs. unfold step in Hs.
  destruct (String.prefix "--" t).
  - destruct (split_eq _) as [name attached].
    destruct (find_long g name) as [a |] eqn:Ha;
      [| destruct (String.eqb name "help"), (String.eqb name "version"); discriminate].
    pose proof (find_in _ _ _ Ha) as Hin.
    destruct (arg_kind a), attached as [v |]; try discriminate.
    + destruct (store ovr a "true" m) as [m' |] eqn:Hst; [| discriminate].
      injection Hs as <-. split; [exact (matches_inv_store _ _ _ _ _ _ Hin Hm Hst) | discriminate].
    + destruct (store ovr a v m) as [m' |] eqn:Hst; [| discriminate].
      injection Hs as <-. split; [exact (matches_inv_store _ _ _ _ _ _ Hin Hm Hst) | discriminate].
    + injection Hs as <-. split; [exact Hm | intros a' H; injection H as <-; exact Hin].
  - destruct (looks_like_flag t).
    + exact (step_inv_short_cluster _ _ _ _ _ _ Hm Hs).
    + destruct (store_positional g ovr t m) as [m' |] eqn:Hst; [| discriminate].
      injection Hs as <-. split; [exact (matches_inv_store_positional _ _ _ _ _ Hm Hst) | discriminate].
Qed.

Lemma matches_inv_parse_tokens_len : forall g ovr n ts esc m m',
  List.length ts <= n ->
  matches_inv g m -> parse_tokens g ovr esc ts m = Ok m' -> matches_inv g m'.
Proof.
  intros g ovr n. induction n as [| n IH]; intros ts esc m m' Hl Hm Hp;
    destruct ts as [| t ts]; simpl in Hp, Hl.
  - injection Hp as <-. exact Hm.
  - lia.
  - injection Hp as <-. exact Hm.
  - destruct esc.
    + destruct (store_positional g ovr t m) as [m1 |] eqn:Hst; [| discriminate].
      exact (IH ts true m1 m' ltac:(lia) (matches_inv_store_positional _ _ _ _ _ Hm Hst) Hp).
    + destruct (String.eqb t "--"); [exact (IH ts true m m' ltac:(lia) Hm Hp) |].
      destruct (step g ovr t m) as [[m1 [a |]] |] eqn:Hst; [| | discriminate];
        pose proof (step_inv_step _ _ _ _ _ Hm Hst) as [Hm1 Ha]; simpl in Hm1, Ha.
      * destruct ts as [| v ts]; [discriminate |].
        destruct (looks_like_flag v); [discriminate |].
        destruct (store ovr a v m1) as [m2 |] eqn:Hst2; [| discriminate].
        simpl in Hl.
        exact (IH ts false m2 m' ltac:(lia)
                 (matches_inv_store _ _ _ _ _ _ (Ha a eq_refl) Hm1 Hst2) Hp).
      * exact (IH ts false m1 m' ltac:(lia) Hm1 Hp).
Qed.

Lemma matches_inv_parse_tokens : forall g ovr ts esc m m',
  matches_inv g m -> parse_tokens g ovr esc ts m = Ok m' -> matches_inv g m'.
Proof.
  intros g ovr ts esc m m'.
  exact (matches_inv_parse_tokens_len g ovr (List.length ts) ts esc m m' (le_n _)).
Qed.

Lemma matches_inv_add_defaults : forall g m,
  matches_inv g m -> matches_inv g (add_defaults g m).
Proof.
  intros g m Hm id src vs H. unfold add_defaults in H. rewrite m_find_app in H.
  destruct (m_find id m) eqn:Hf.
  - injection H as ->. exact (Hm _ _ _ Hf).
  - apply m_find_in in H. apply in_flat_map in H as [a [Ha Hin]].
    destruct (arg_default a) as [d |] eqn:Hd; [| contradiction].
    destruct (m_find (arg_id a) m); [contradiction |].
    destruct Hin as [Hin | []]. injection Hin as <- <- <-.
    exists a, d. auto.
Qed.

Lemma matches_full_add_defaults : forall g m, matches_full g (add_defaults g m).
Proof.
  intros g m a d Ha Hd. unfold add_defaults. rewrite m_find_app.
  destruct (m_find (arg_id a) m) eqn:Hf; [discriminate |].
  apply (in_m_find _ _ (DefaultValue, [d])). apply in_flat_map.
  exists a. split; [exact Ha |]. rewrite Hd, Hf. left. reflexivity.
Qed.

Lemma get_matches_from_wf : forall g ovr argv m,
  get_matches_from g ovr argv = Ok m -> matches_inv g m /\ matches_full g m.
Proof.
  intros g ovr argv m H. unfold get_matches_from in H.
  destruct (parse_tokens g ovr false _ []) as [m0 |] eqn:Hp; [| discriminate].
  unfold validate in H. destruct (first_missing g (add_defaults g m0)) as [[? ?] |];
    [discriminate |]. injection H as <-.
  split; [| apply matches_full_add_defaults].
  apply matches_inv_add_defaults. exact (matches_inv_parse_tokens _ _ _ _ _ _ (matches_inv_nil g) Hp).
Qed.

Lemma arg_unique : forall (l : list Arg) a b,
  NoDup (map arg_id l) -> In a l -> In b l -> arg_id a = arg_id b -> a = b.
Proof.
  intros l. induction l as [| x l IH]; intros a b Hnd Ha Hb Hid; [contradiction |].
  inversion Hnd as [| ? ? Hx Hnd']; subst.
  destruct Ha as [<- | Ha], Hb as [<- | Hb]; auto.
  - exfalso. apply Hx. rewrite Hid. apply in_map. exact Hb.
  - exfalso. apply Hx. rewrite <- Hid. apply in_map. exact Ha.
Qed.

Lemma grammar_ids_nodup : forall env, NoDup (map arg_id (grammar env)).
Proof.
  intros env. simpl. repeat constructor; simpl; intuition discriminate.
Qed.

Lemma raw1_spec : forall env m a,
  wf_matches env m -> In a (grammar env) ->
  (raw1 (arg_id a) m = None /\ arg_default a = None) \/
  exists v, raw1 (arg_id a) m = Some v /\
            (arg_parser a v = true \/ arg_default a = Some v).
Proof.
  intros env m a [Hinv Hfull] Ha. unfold raw1, try_get_raw.
  destruct (m_find (arg_id a) m) as [[src vs] |] eqn:Hf.
  - right. destruct (Hinv _ _ _ Hf) as [a' [v [Ha' [Hid [-> Hv]]]]].
    rewrite (arg_unique _ _ _ (grammar_ids_nodup env) Ha' Ha Hid) in Hv.
    exists v. auto.
  - left. split; [reflexivity |].
    destruct (arg_default a) as [d |] eqn:Hd; [| reflexivity].
    exfalso. exact (Hfull a d Ha Hd Hf).
Qed.

Lemma get_flag_ok : forall env m a d,
  wf_matches env m -> In a (grammar env) -> arg_default a = Some d ->
  exists b, get_flag (arg_id a) m = Some b.
Proof.
  intros env m a d Hwf Ha Hd. unfold get_flag.
  destruct (raw1_spec env m a Hwf Ha) as [[-> Hd'] | [v [-> _]]].
  - congruence.
  - eexists; reflexivity.
Qed.

Lemma get_optional_ok : forall {T} (parse : OsString -> option T) env m a,
  wf_matches env m -> In a (grammar env) -> arg_default a = None ->
  (forall v, arg_parser a v = true -> exists x, parse v = Some x) ->
  exists o, get_optional parse (arg_id a) m = Some o.
Proof.
  intros T parse env m a Hwf Ha Hd Hp. unfold get_optional.
  destruct (raw1_spec env m a Hwf Ha) as [[-> _] | [v [-> [Hv | Hv]]]].
  - eexists; reflexivity.
  - destruct (Hp v Hv) as [x ->]. eexists; reflexivity.
  - congruence.
Qed.

Lemma get_required_ok : forall {T} (parse : OsString -> option T) env m a d,
  wf_matches env m -> In a (grammar env) -> arg_default a = Some d ->
  (forall v, arg_parser a v = true -> exists x, parse v = Some x) ->
  (exists x, parse d = Some x) ->
  exists x, get_required parse (arg_id a) m = Some x.
Proof.
  intros T parse env m a d Hwf Ha Hd Hp Hpd. unfold get_required.
  destruct (raw1_spec env m a Hwf Ha) as [[-> Hd'] | [v [-> [Hv | Hv]]]].
  - congruence.
  - exact (Hp v Hv).
  - rewrite Hd in Hv. injection Hv as <-. exact Hpd.
Qed.

Ltac grammar_at env k := exact (nth_In (grammar env) dummy_arg (n := k) ltac:(simpl; lia)).

Ltac use_flag env m Hwf k id :=
  let b := fresh "b" in let Hb := fresh "Hb" in
  destruct (get_flag_ok env m (nth k (grammar env) dummy_arg) "false" Hwf
              ltac:(grammar_at env k) eq_refl) as [b Hb];
  change (arg_id (nth k (grammar env) dummy_arg)) with id in Hb;
  rewrite Hb.

Lemma from_arg_matches_total : forall env m,
  wf_matches env m -> exists c, from_arg_matches env m = Some c.
Proof.
  intros env m Hwf. unfold from_arg_matches.
  destruct (get_optional_ok Some env m (nth 0 (grammar env) dummy_arg) Hwf
              ltac:(grammar_at env 0) eq_refl
              (fun v _ => ex_intro _ v eq_refl)) as [x0 H0].
  change (arg_id (nth 0 (grammar env) dummy_arg)) with "dir" in H0. rewrite H0.
  destruct (get_required_ok parse_disk_usage env m (nth 1 (grammar env) dummy_arg)
              (disk_usage_name (du_default env)) Hwf ltac:(grammar_at env 1) eq_refl)
    as [x1 H1].
  { intros v Hv. simpl in Hv. unfold parse_disk_usage.
    destruct (String.eqb v "logical"); [eexists; reflexivity |].
    destruct (String.eqb v "physical"); [eexists; reflexivity | discriminate]. }
  { destruct (du_default env); eexists; reflexivity. }
  change (arg_id (nth 1 (grammar env) dummy_arg)) with "disk_usage" in H1. rewrite H1.
  use_flag env m Hwf 2 "hidden".
  use_flag env m Hwf 3 "no_git".
  use_flag env m Hwf 4 "no_ignore".
  use_flag env m Hwf 5 "follow".
  use_flag env m Hwf 6 "icons".
  destruct (get_optional_ok parse_usize env m (nth 7 (grammar env) dummy_arg) Hwf
              ltac:(grammar_at env 7) eq_refl) as [x7 H7].
  { intros v Hv. change (usize_parser v = true) in Hv. unfold usize_parser in Hv.
    destruct (parse_usize v); [eexists; reflexivity | discriminate]. }
  change (arg_id (nth 7 (grammar env) dummy_arg)) with "level" in H7. rewrite H7.
  use_flag env m Hwf 8 "long".
  destruct (get_optional_ok Some env m (nth 9 (grammar env) dummy_arg) Hwf
              ltac:(grammar_at env 9) eq_refl
              (fun v _ => ex_intro _ v eq_refl)) as [x9 H9].
  change (arg_id (nth 9 (grammar env) dummy_arg)) with "pattern" in H9. rewrite H9.
  use_flag env m Hwf 10 "glob".
  use_flag env m Hwf 11 "iglob".
  use_flag env m Hwf 12 "prune".
  destruct (get_required_ok parse_usize env m (nth 13 (grammar env) dummy_arg) "2" Hwf
              ltac:(grammar_at env 13) eq_refl) as [x13 H13].
  { intros v Hv. change (usize_parser v = true) in Hv. unfold usize_parser in Hv.
    destruct (parse_usize v); [eexists; reflexivity | discriminate]. }
  { eexists; reflexivity. }
  change (arg_id (nth 13 (grammar env) dummy_arg)) with "scale" in H13. rewrite H13.
  use_flag env m Hwf 14 "report".
  use_flag env m Hwf 15 "human".
  use_flag env m Hwf 16 "file_name".
  destruct (get_required_ok Some env m (nth 17 (grammar env) dummy_arg) (sort_default env)
              Hwf ltac:(grammar_at env 17) eq_refl
              (fun v _ => ex_intro _ v eq_refl) (ex_intro _ _ eq_refl)) as [x17 H17].
  change (arg_id (nth 17 (grammar env) dummy_arg)) with "sort" in H17. rewrite H17.
  use_flag env m Hwf 18 "dirs_first".
  destruct (get_required_ok parse_usize env m (nth 19 (grammar env) dummy_arg) "3" Hwf
              ltac:(grammar_at env 19) eq_refl) as [x19 H19].
  { intros v Hv. change (usize_parser v = true) in Hv. unfold usize_parser in Hv.
    destruct (parse_usize v); [eexists; reflexivity | discriminate]. }
  { eexists; reflexivity. }
  change (arg_id (nth 19 (grammar env) dummy_arg)) with "threads" in H19. rewrite H19.
  destruct (get_required_ok parse_prefix_kind env m (nth 20 (grammar env) dummy_arg)
              (prefix_kind_name (unit_default env)) Hwf ltac:(grammar_at env 20) eq_refl)
    as [x20 H20].
  { intros v Hv. simpl in Hv. unfold parse_prefix_kind.
    destruct (String.eqb v "bin"); [eexists; reflexivity |].
    destruct (String.eqb v "si"); [eexists; reflexivity | discriminate]. }
  { destruct (unit_default env); eexists; reflexivity. }
  change (arg_id (nth 20 (grammar env) dummy_arg)) with "unit" in H20. rewrite H20.
  destruct (get_optional_ok Some env m (nth 21 (grammar env) dummy_arg) Hwf
              ltac:(grammar_at env 21) eq_refl
              (fun v _ => ex_intro _ v eq_refl)) as [x21 H21].
  change (arg_id (nth 21 (grammar env) dummy_arg)) with "completions" in H21. rewrite H21.
  use_flag env m Hwf 22 "dirs_only".
  use_flag env m Hwf 23 "no_color".
  use_flag env m Hwf 24 "no_config".
  use_flag env m Hwf 25 "suppress_size".
  eexists. reflexivity.
Qed.

Lemma command_resolves : forall env ovr argv m,
  command env ovr argv = Ok m -> exists c, from_arg_matches env m = Some c.
Proof.
  intros env ovr argv m H. apply from_arg_matches_total.
  exact (get_matches_from_wf _ _ _ _ H).
Qed.

(** [Context::init] never returns [Err]: [from_arg_matches] cannot fail
    on matches that the grammar produced, so every [map_err] branch is
    dead and a failure of [init] is always a clap exit. *)
Theorem init_never_failed : forall env argv config e,
  init env argv config <> Failed e.
Proof.
  intros env argv config e. unfold init.
  destruct (command env true argv) as [u |] eqn:Hu; [| discriminate].
  destruct (command_resolves _ _ _ _ Hu) as [cu Hcu].
  destruct (match get_flag "no_config" u with Some b => b | None => false end).
  - rewrite Hcu. discriminate.
  - destruct config as [raw |]; [| rewrite Hcu; discriminate].
    destruct (command env false raw) as [ca |] eqn:Hc; [| discriminate].
    destruct (command_resolves _ _ _ _ Hc) as [cc Hcc].
    destruct (negb (args_present u)); [rewrite Hcc; discriminate |].
    destruct (command env false (resynthesize u ca)) as [cl |] eqn:Hl; [| discriminate].
    destruct (command_resolves _ _ _ _ Hl) as [c Hcl]. rewrite Hcl. discriminate.
Qed.

Lemma init_never_failed_witness :
  init env0 ["et"; "--glob"] (Some ["--"; "--level"; "x"]) <> Failed ArgParse.
Proof.
  exact (init_never_failed env0 ["et"; "--glob"] (Some ["--"; "--level"; "x"]) ArgParse).
Defined.

Lemma source_inv_store : forall g ovr a v m m',
  In a g -> (arg_kind a = Flag -> v = "true") ->
  source_inv g m -> store ovr a v m = Ok m' -> source_inv g m'.
Proof.
  intros g ovr a v m m' Ha Hv Hm Hs. unfold store in Hs.
  destruct (arg_parser a v); [| discriminate]. simpl in Hs.
  destruct (m_find (arg_id a) m) as [x |] eqn:Hf.
  - destruct ovr; [| discriminate]. injection Hs as <-.
    intros id src vs H. rewrite m_find_replace, Hf in H.
    destruct (String.eqb_spec (arg_id a) id) as [<- | _].
    + injection H as <- <-. exists a, v. auto.
    + exact (Hm _ _ _ H).
  - injection Hs as <-. intros id src vs H. rewrite m_find_app in H.
    destruct (m_find id m) eqn:Hf'.
    + injection H as ->. exact (Hm _ _ _ Hf').
    + rewrite m_find_cons in H. destruct (String.eqb_spec (arg_id a) id) as [<- | _];
        [| discriminate].
      injection H as <- <-. exists a, v. auto.
Qed.

Lemma source_inv_store_positional : forall g ovr t m m',
  source_inv g m -> store_positional g ovr t m = Ok m' -> source_inv g m'.
Proof.
  intros g ovr t m m' Hm Hs. unfold store_positional in Hs.
  destruct (find_positional g) as [a |] eqn:Hp; [| discriminate].
  destruct (m_find (arg_id a) m); [discriminate |].
  destruct (find_some _ _ Hp) as [Hin Hk].
  apply (source_inv_store g ovr a t m m' Hin); [| exact Hm | exact Hs].
  intros Hf. rewrite Hf in Hk. discriminate.
Qed.

Lemma step_source_inv_short_cluster : forall g ovr t cs m r,
  source_inv g m -> short_cluster g ovr t cs m = Ok r -> step_source_inv g r.
Proof.
  intros g ovr t cs. induction cs as [| c cs IH]; intros m r Hm Hs; simpl in Hs.
  - injection Hs as <-. split; [exact Hm | discriminate].
  - destruct (find_short g c) as [a |] eqn:Ha;
      [| destruct (Ascii.eqb c "h"), (Ascii.eqb c "V"); discriminate].
    pose proof (find_in _ _ _ Ha) as Hin.
    destruct (arg_kind a) eqn:Hk.
    + discriminate.
    + destruct (store ovr a "true" m) as [m' |] eqn:Hst; [| discriminate].
      exact (IH m' r (source_inv_store _ _ _ _ _ _ Hin (fun _ => eq_refl) Hm Hst) Hs).
    + destruct cs as [| e v].
      * injection Hs as <-. split; [exact Hm | intros a' H; injection H as <-; auto].
      * destruct (store ovr a _ m) as [m' |] eqn:Hst; [| discriminate].
        injection Hs as <-. split; [| discriminate].
        eapply (source_inv_store g ovr a _ m m' Hin); [congruence | exact Hm | exact Hst].
Qed.

Lemma step_source_inv_step : forall g ovr t m r,
  source_inv g m -> step g ovr t m = Ok r -> step_source_inv g r.
Proof.
  intros g ovr t m r Hm Hs. unfold step in Hs.
  destruct (String.prefix "--" t).
  - destruct (split_eq _) as [name attached].
    destruct (find_long g name) as [a |] eqn:Ha;
      [| destruct (String.eqb name "help"), (String.eqb name "version"); discriminate].
    pose proof (find_in _ _ _ Ha) as Hin.
    destruct (arg_kind a) eqn:Hk, attached as [v |]; try discriminate.
    + destruct (store ovr a "true" m) as [m' |] eqn:Hst; [| discriminate].
      injection Hs as <-. split; [| discriminate].
      exact (source_inv_store _ _ _ _ _ _ Hin (fun _ => eq_refl) Hm Hst).
    + destruct (store ovr a v m) as [m' |] eqn:Hst; [| discriminate].
      injection Hs as <-. split; [| discriminate].
      eapply (source_inv_store g ovr a _ m m' Hin); [congruence | exact Hm | exact Hst].
    + injection Hs as <-. split; [exact Hm | intros a' H; injection H as <-; auto].
  - destruct (looks_like_flag t).
    + exact (step_source_inv_short_cluster _ _ _ _ _ _ Hm Hs).
    + destruct (store_positional g ovr t m) as [m' |] eqn:Hst; [| discriminate].
      injection Hs as <-. split; [exact (source_inv_store_positional _ _ _ _ _ Hm Hst) | discriminate].
Qed.

Lemma source_inv_parse_tokens_len : forall g ovr n ts esc m m',
  List.length ts <= n ->
  source_inv g m -> parse_tokens g ovr esc ts m = Ok m' -> source_inv g m'.
Proof.
  intros g ovr n. induction n as [| n IH]; intros ts esc m m' Hl Hm Hp;
    destruct ts as [| t ts]; simpl in Hp, Hl.
  - injection Hp as <-. exact Hm.
  - lia.
  - injection Hp as <-. exact Hm.
  - destruct esc.
    + destruct (store_positional g ovr t m) as [m1 |] eqn:Hst; [| discriminate].
      exact (IH ts true m1 m' ltac:(lia) (source_inv_store_positional _ _ _ _ _ Hm Hst) Hp).
    + destruct (String.eqb t "--"); [exact (IH ts true m m' ltac:(lia) Hm Hp) |].
      destruct (step g ovr t m) as [[m1 [a |]] |] eqn:Hst; [| | discriminate];
        pose proof (step_source_inv_step _ _ _ _ _ Hm Hst) as [Hm1 Ha]; simpl in Hm1, Ha.
      * destruct ts as [| v ts]; [discriminate |].
        destruct (looks_like_flag v); [discriminate |].
        destruct (store ovr a v m1) as [m2 |] eqn:Hst2; [| discriminate].
        simpl in Hl. destruct (Ha a eq_refl) as [Hin Hk].
        apply (IH ts false m2 m' ltac:(lia)); [| exact Hp].
        apply (source_inv_store g ovr a v m1 m2 Hin); [congruence | exact Hm1 | exact Hst2].
      * exact (IH ts false m1 m' ltac:(lia) Hm1 Hp).
Qed.

Lemma source_inv_add_defaults : forall g m,
  source_inv g m -> source_inv g (add_defaults g m).
Proof.
  intros g m Hm id src vs H. unfold add_defaults in H. rewrite m_find_app in H.
  destruct (m_find id m) eqn:Hf.
  - injection H as ->. exact (Hm _ _ _ Hf).
  - apply m_find_in in H. apply in_flat_map in H as [a [Ha Hin]].
    destruct (arg_default a) as [d |] eqn:Hd; [| contradiction].
    destruct (m_find (arg_id a) m); [contradiction |].
    destruct Hin as [Hin | []]. injection Hin as <- <- <-.
    exists a, d. auto.
Qed.

Lemma get_matches_from_validated : forall g ovr argv m,
  get_matches_from g ovr argv = Ok m -> source_inv g m /\ first_missing g m = None.
Proof.
  intros g ovr argv m H. unfold get_matches_from in H.
  destruct (parse_tokens g ovr false _ []) as [m0 |] eqn:Hp; [| discriminate].
  unfold validate in H. destruct (first_missing g (add_defaults g m0)) as [[? ?] |] eqn:Hfm;
    [discriminate |]. injection H as <-. split; [| exact Hfm].
  apply source_inv_add_defaults.
  refine (source_inv_parse_tokens_len g ovr _ _ false [] m0 (le_n _) _ Hp).
  intros id src vs H. discriminate.
Qed.

Lemma requires_hold : forall g m a r,
  first_missing g m = None -> In a g -> present_explicitly (arg_id a) m = true ->
  In r (arg_requires a) -> present_explicitly r m = true.
Proof.
  intros g m a r Hfm Ha Hp Hr. unfold first_missing in Hfm.
  pose proof (find_none _ _ Hfm (arg_id a, r)) as H. simpl in H.
  destruct (present_explicitly r m); [reflexivity |].
  exfalso. assert (Hin : In (arg_id a, r) (flat_map (fun a0 =>
       if present_explicitly (arg_id a0) m
       then map (fun r0 => (arg_id a0, r0)) (arg_requires a0) else []) g)).
  { apply in_flat_map. exists a. split; [exact Ha |]. rewrite Hp.
    apply in_map. exact Hr. }
  specialize (H Hin). discriminate.
Qed.

Lemma flag_true_explicit : forall env m a,
  source_inv (grammar env) m -> In a (grammar env) -> arg_default a = Some "false" ->
  get_flag (arg_id a) m = Some true -> present_explicitly (arg_id a) m = true.
Proof.
  intros env m a Hs Ha Hd H.
  unfold get_flag, raw1, try_get_raw in H. unfold present_explicitly, value_source.
  destruct (m_find (arg_id a) m) as [[src vs] |] eqn:Hf; [| discriminate].
  destruct (Hs _ _ _ Hf) as [a' [v [Ha' [Hid [-> Hq]]]]].
  rewrite (arg_unique _ _ _ (grammar_ids_nodup env) Ha' Ha Hid) in Hq.
  injection H as Hv. apply String.eqb_eq in Hv. subst v.
  destruct src; [| reflexivity | reflexivity]. rewrite Hd in Hq. discriminate.
Qed.

Lemma explicit_flag_true : forall env m a,
  source_inv (grammar env) m -> In a (grammar env) -> arg_kind a = Flag ->
  present_explicitly (arg_id a) m = true -> get_flag (arg_id a) m = Some true.
Proof.
  intros env m a Hs Ha Hk H.
  unfold present_explicitly, value_source in H. unfold get_flag, raw1, try_get_raw.
  destruct (m_find (arg_id a) m) as [[src vs] |] eqn:Hf; [| discriminate].
  destruct (Hs _ _ _ Hf) as [a' [v [Ha' [Hid [-> Hq]]]]].
  rewrite (arg_unique _ _ _ (grammar_ids_nodup env) Ha' Ha Hid) in Hq.
  destruct src; [discriminate | |]; rewrite (Hq Hk); reflexivity.
Qed.

Lemma explicit_optional_some : forall g m id,
  source_inv g m -> present_explicitly id m = true ->
  exists v, get_optional Some id m = Some (Some v).
Proof.
  intros g m id Hs H. unfold present_explicitly, value_source in H.
  unfold get_optional, raw1, try_get_raw.
  destruct (m_find id m) as [[src vs] |] eqn:Hf; [| discriminate].
  destruct (Hs _ _ _ Hf) as [a [v [_ [_ [-> _]]]]]. exists v. reflexivity.
Qed.

Lemma from_arg_matches_requires_fields : forall env m c,
  from_arg_matches env m = Some c ->
  get_flag "glob" m = Some (glob c) /\ get_flag "iglob" m = Some (iglob c) /\
  get_optional Some "pattern" m = Some (pattern c) /\
  get_flag "no_git" m = Some (no_git c) /\ get_flag "hidden" m = Some (hidden c) /\
  get_flag "human" m = Some (human c) /\ get_flag "file_name" m = Some (file_name c) /\
  get_flag "report" m = Some (report c).
Proof.
  intros env m c H. unfold from_arg_matches in H.
  repeat match type of H with
         | match ?x with Some _ => _ | None => _ end = Some _ =>
             let E := fresh "E" in destruct x eqn:E; [| discriminate H]
         end.
  injection H as <-. simpl. repeat split; assumption.
Qed.

Lemma init_resolved_from_command : forall env argv config c,
  init env argv config = Resolved c ->
  exists ovr argv' m, command env ovr argv' = Ok m /\ from_arg_matches env m = Some c.
Proof.
  intros env argv config c H. unfold init, map_err in H.
  destruct (command env true argv) as [u |] eqn:Hu; [| discriminate].
  destruct (match get_flag "no_config" u with Some b => b | None => false end).
  - destruct (from_arg_matches env u) eqn:Hf; [| discriminate].
    injection H as <-. eauto.
  - destruct config as [raw |].
    + destruct (command env false raw) as [ca |] eqn:Hc; [| discriminate].
      destruct (negb (args_present u)).
      * destruct (from_arg_matches env ca) eqn:Hf; [| discriminate].
        injection H as <-. eauto.
      * destruct (command env false (resynthesize u ca)) as [cl |] eqn:Hl; [| discriminate].
        destruct (from_arg_matches env cl) eqn:Hf; [| discriminate].
        injection H as <-. eauto.
    + destruct (from_arg_matches env u) eqn:Hf; [| discriminate].
      injection H as <-. eauto.
Qed.

(** Every parameter set [init] resolves satisfies the grammar's
    dependencies: the glob modes come with a pattern, [no_git] with
    [hidden], and [human] and [file_name] with [report]; whichever of the
    three parses produced it. *)
Theorem init_requires_hold : forall env argv config c,
  init env argv config = Resolved c ->
  (glob c = true -> pattern c <> None) /\ (iglob c = true -> pattern c <> None) /\
  (no_git c = true -> hidden c = true) /\ (human c = true -> report c = true) /\
  (file_name c = true -> report c = true).
Proof.
  intros env argv config c H.
  destruct (init_resolved_from_command _ _ _ _ H) as [ovr [argv' [m [Hm Hc]]]].
  destruct (get_matches_from_validated _ _ _ _ Hm) as [Hs Hfm].
  destruct (from_arg_matches_requires_fields _ _ _ Hc)
    as [Hglob [Higlob [Hpat [Hnogit [Hhid [Hhum [Hfn Hrep]]]]]]].
  assert (Hreq : forall k r, k < 26 -> arg_default (nth k (grammar env) dummy_arg) = Some "false" ->
            In r (arg_requires (nth k (grammar env) dummy_arg)) ->
            get_flag (arg_id (nth k (grammar env) dummy_arg)) m = Some true ->
            present_explicitly r m = true).
  { intros k r Hk Hd Hr Hf.
    assert (Hin : In (nth k (grammar env) dummy_arg) (grammar env))
      by (apply nth_In; simpl; lia).
    exact (requires_hold _ _ _ r Hfm Hin (flag_true_explicit env m _ Hs Hin Hd Hf) Hr). }
  assert (Hpattern : present_explicitly "pattern" m = true -> pattern c <> None).
  { intros Hp. destruct (explicit_optional_some _ _ _ Hs Hp) as [v Hv].
    rewrite Hpat in Hv. injection Hv as ->. discriminate. }
  assert (Hflag : forall k, k < 26 -> arg_kind (nth k (grammar env) dummy_arg) = Flag ->
            forall b, get_flag (arg_id (nth k (grammar env) dummy_arg)) m = Some b ->
            present_explicitly (arg_id (nth k (grammar env) dummy_arg)) m = true -> b = true).
  { intros k Hk Hkind b Hb Hp.
    assert (Hin : In (nth k (grammar env) dummy_arg) (grammar env))
      by (apply nth_In; simpl; lia).
    rewrite (explicit_flag_true env m _ Hs Hin Hkind Hp) in Hb. congruence. }
  repeat split.
  - intros Hg. apply Hpattern. apply (Hreq 10 "pattern"); [lia | reflexivity | left; reflexivity |].
    rewrite <- Hg. exact Hglob.
  - intros Hg. apply Hpattern. apply (Hreq 11 "pattern"); [lia | reflexivity | left; reflexivity |].
    rewrite <- Hg. exact Higlob.
  - intros Hg. apply (Hflag 2); [lia | reflexivity | exact Hhid |].
    apply (Hreq 3 "hidden"); [lia | reflexivity | left; reflexivity |].
    rewrite <- Hg. exact Hnogit.
  - intros Hg. apply (Hflag 14); [lia | reflexivity | exact Hrep |].
    apply (Hreq 15 "report"); [lia | reflexivity | left; reflexivity |].
    rewrite <- Hg. exact Hhum.
  - intros Hg. apply (Hflag 14); [lia | reflexivity | exact Hrep |].
    apply (Hreq 16 "report"); [lia | reflexivity | left; reflexivity |].
    rewrite <- Hg. exact Hfn.
Qed.

Lemma init_requires_hold_witness :
  let c := match init env0 ["et"; "--iglob"; "-p"; "*.RS"] (Some ["--"; "--hidden"]) with
           | Resolved c => c | _ => ctx_with_pattern None false false end in
  init env0 ["et"; "--iglob"; "-p"; "*.RS"] (Some ["--"; "--hidden"]) = Resolved c /\
  iglob c = true /\ pattern c <> None.
Proof.
  intros c.
  assert (H : init env0 ["et"; "--iglob"; "-p"; "*.RS"] (Some ["--"; "--hidden"]) = Resolved c)
    by (vm_compute; reflexivity).
  assert (Hg : iglob c = true) by (vm_compute; reflexivity).
  split; [exact H | split; [exact Hg |]].
  exact (proj1 (proj2 (init_requires_hold env0 _ _ _ H)) Hg).
Defined.
